(** * ssh-mcp: admission control, connection pool and command execution

    A shallow embedding of [src/index.ts].  The module-level constants of
    the source (read once from the command line or the environment) are
    gathered in a record [Config]; the two process-wide mutable objects,
    [rateLimiter] and [connectionPool], become explicit state that every
    operation threads through; a thrown [McpError] becomes the [Throw]
    branch of a result type; callbacks of the event loop become handlers
    of a step function over the state of one request.

    Numbers are [Z]: [Date.now()] and the parsed configuration values are
    integers.  Strings are [string], one [ascii] per code unit.  The lines
    written by [debugLog] and [auditLog] go to the console only and are
    left out. *)

From Stdlib Require Import ZArith List String Ascii Bool Lia DecimalString.
From Stdlib Require Import Permutation.
Import ListNotations.
Open Scope string_scope.
Open Scope list_scope.
Open Scope Z_scope.

(** ** Errors *)

Inductive ErrorCode := InvalidRequest | InvalidParams | InternalError.

Record McpError := mkError { code : ErrorCode; message : string }.

Inductive Result (A : Type) :=
| Ok (a : A)
| Throw (e : McpError).
Arguments Ok {A} a.
Arguments Throw {A} e.

Definition isOk {A} (r : Result A) : bool :=
  match r with Ok _ => true | Throw _ => false end.

(** Template literals print numbers in decimal. *)
Definition string_of_Z (z : Z) : string := NilZero.string_of_int (Z.to_int z).

(** ** Configuration *)

Record Config := mkConfig {
  DEFAULT_TIMEOUT : Z;
  RATE_LIMIT_ENABLED : bool;
  RATE_LIMIT_MAX : Z;
  RATE_LIMIT_WINDOW : Z;
  POOL_ENABLED : bool;
  POOL_MAX_SIZE : Z;
  POOL_TTL : Z;
  MAX_CHARS : option nat;      (* [None] is [Infinity] *)
  STRICT_MODE : bool
}.

(** The defaults of the source. *)
Definition defaultConfig : Config :=
  mkConfig 60000 true 10 60000 true 3 300000 (Some 1000%nat) false.

(** The scenarios of the specification: a timeout of 100 ms, three
    requests per 5000 ms, a pool of one. *)
Definition scenarioConfig : Config :=
  mkConfig 100 true 3 5000 true 1 300000 (Some 1000%nat) true.

(** ** RateLimiter *)

Module RateLimiter.

(** [this.requests] *)
Definition State := list Z.

Definition rateLimitExceeded (max windowMs : Z) : McpError :=
  mkError InvalidRequest
    ("Rate limit exceeded: " ++ string_of_Z max ++ " requests per "
       ++ string_of_Z windowMs ++ "ms")%string.

(** The filter of [checkLimit]: [time => time > windowStart]. *)
Definition inWindow (windowStart : Z) (time : Z) : bool := windowStart <? time.

Definition checkLimit (cfg : Config) (now : Z) (requests : State)
  : State * Result unit :=
  if negb (RATE_LIMIT_ENABLED cfg) then (requests, Ok tt)
  else
    let windowStart := now - RATE_LIMIT_WINDOW cfg in
    let requests := filter (inWindow windowStart) requests in
    if Z.of_nat (List.length requests) >=? RATE_LIMIT_MAX cfg
    then (requests, Throw (rateLimitExceeded (RATE_LIMIT_MAX cfg) (RATE_LIMIT_WINDOW cfg)))
    else (requests ++ [now], Ok tt).

(** A burst of calls, one per timestamp, in order; the results are
    collected in call order. *)
Fixpoint checkAll (cfg : Config) (times : list Z) (requests : State)
  : State * list (Result unit) :=
  match times with
  | [] => (requests, [])
  | now :: rest =>
      let '(requests1, r) := checkLimit cfg now requests in
      let '(requests2, rs) := checkAll cfg rest requests1 in
      (requests2, r :: rs)
  end.

End RateLimiter.

(** ** SSHConnectionPool *)

(** An [SSHClient] object is known by its identity: the n-th client the
    process constructs is [n]. *)
Definition Conn := nat.

Record PooledConnection := mkPooled { conn : Conn; lastUsed : Z }.

Module SSHConnectionPool.

(** [pool] is [this.pool], index 0 first, so that [push] adds at the end
    and [pop] takes from the end.  The two other fields record what the
    pool does to the transport: [ended] lists the clients on which
    [end()] was called, oldest call first, and [connects] counts the
    clients constructed by [createNewConnection]. *)
Record State := mkState {
  pool : list PooledConnection;
  ended : list Conn;
  connects : nat
}.

Definition empty : State := mkState [] [] 0.

(** [Array.prototype.pop] on a non-empty array. *)
Definition pop {A} (l : list A) : option (list A * A) :=
  match rev l with
  | [] => None
  | x :: r => Some (rev r, x)
  end.

(** [now - pooled.lastUsed > POOL_TTL] *)
Definition expired (cfg : Config) (now : Z) (pooled : PooledConnection) : bool :=
  now - lastUsed pooled >? POOL_TTL cfg.

Definition cleanupExpired (cfg : Config) (now : Z) (st : State) : State :=
  mkState (filter (fun pooled => negb (expired cfg now pooled)) (pool st))
          (ended st ++ map conn (filter (expired cfg now) (pool st)))
          (connects st).

(** [handshake] is what the transport answers to [conn.connect]:
    [None] for the 'ready' event, [Some msg] for an 'error' event. *)
Definition createNewConnection (handshake : option string) (st : State)
  : State * (Conn + string) :=
  let c := connects st in
  (mkState (pool st) (ended st) (S c),
   match handshake with
   | None => inl c
   | Some msg => inr msg
   end).

(** The assignment [pooled.lastUsed = Date.now()] on the popped entry is
    not visible afterwards: the entry is dropped and only its client is
    returned. *)
Definition getConnection (cfg : Config) (now : Z) (handshake : option string)
    (st : State) : State * (Conn + string) :=
  if negb (POOL_ENABLED cfg) then createNewConnection handshake st
  else
    let st := cleanupExpired cfg now st in
    match pop (pool st) with
    | Some (rest, pooled) => (mkState rest (ended st) (connects st), inl (conn pooled))
    | None => createNewConnection handshake st
    end.

Definition endConnection (c : Conn) (st : State) : State :=
  mkState (pool st) (ended st ++ [c]) (connects st).

Definition returnConnection (cfg : Config) (now : Z) (c : Conn) (st : State) : State :=
  if negb (POOL_ENABLED cfg) then endConnection c st
  else if Z.of_nat (List.length (pool st)) >=? POOL_MAX_SIZE cfg then endConnection c st
  else mkState (pool st ++ [mkPooled c now]) (ended st) (connects st).

Definition shutdown (st : State) : State :=
  mkState [] (ended st ++ map conn (pool st)) (connects st).

(** Releasing several clients one after the other, each at its time. *)
Fixpoint returnAll (cfg : Config) (rs : list (Z * Conn)) (st : State) : State :=
  match rs with
  | [] => st
  | (now, c) :: rest => returnAll cfg rest (returnConnection cfg now c st)
  end.

(** The calls the rest of the program makes on the pool. *)
Inductive Call :=
| Get (now : Z) (handshake : option string)
| Return (now : Z) (c : Conn)
| Shutdown.

Definition call (cfg : Config) (k : Call) (st : State) : State :=
  match k with
  | Get now handshake => fst (getConnection cfg now handshake st)
  | Return now c => returnConnection cfg now c st
  | Shutdown => shutdown st
  end.

Fixpoint calls (cfg : Config) (ks : list Call) (st : State) : State :=
  match ks with
  | [] => st
  | k :: rest => calls cfg rest (call cfg k st)
  end.

End SSHConnectionPool.

(** ** Command sanitization *)

(** White space of [String.prototype.trim] and of [\s] among the code
    units below 256: TAB, LF, VT, FF, CR, SP and NBSP. *)
Definition isSpace (c : ascii) : bool :=
  let n := nat_of_ascii c in
  ((9 <=? n) && (n <=? 13) || (n =? 32) || (n =? 160))%nat.

Fixpoint trimStart (s : string) : string :=
  match s with
  | String c r => if isSpace c then trimStart r else s
  | EmptyString => EmptyString
  end.

Definition revString (s : string) : string :=
  string_of_list_ascii (rev (list_ascii_of_string s)).

Definition trim (s : string) : string :=
  revString (trimStart (revString (trimStart s))).

Definition startsWith (s p : string) : bool := String.prefix p s.

(** [s.includes(sub)], which is also [/sub/.test(s)] for a literal [sub]. *)
Fixpoint includes (s sub : string) : bool :=
  if String.prefix sub s then true
  else match s with
       | EmptyString => false
       | String _ r => includes r sub
       end.

(** [/a\s*b/.test(s)] for two characters [a], [b] that are not white space. *)
Fixpoint gapTest (a b : ascii) (s : string) : bool :=
  match s with
  | EmptyString => false
  | String c r =>
      (if Ascii.eqb c a
       then match trimStart r with
            | String d _ => Ascii.eqb d b
            | EmptyString => false
            end
       else false) || gapTest a b r
  end.

Record Pattern := mkPattern { source : string; test : string -> bool }.

Definition DANGEROUS_PATTERNS : list Pattern :=
  [ mkPattern ";" (fun s => includes s ";");
    mkPattern "&&" (fun s => includes s "&&");
    mkPattern "\|\|" (fun s => includes s "||");
    mkPattern "\|" (fun s => includes s "|");
    mkPattern "`" (fun s => includes s "`");
    mkPattern "\$\(" (fun s => includes s "$(");
    mkPattern ">\s*&" (gapTest ">" "&");
    mkPattern "&\s*>" (gapTest "&" ">") ].

Definition sanitizeCommand (cfg : Config) (command : string) : Result string :=
  let trimmedCommand := trim command in
  if (String.length trimmedCommand =? 0)%nat
  then Throw (mkError InvalidParams "Command cannot be empty")
  else
    let tooLong :=
      match MAX_CHARS cfg with
      | Some m => (m <? String.length trimmedCommand)%nat
      | None => false
      end in
    if tooLong
    then Throw (mkError InvalidParams
                  ("Command is too long (max "
                     ++ match MAX_CHARS cfg with
                        | Some m => string_of_Z (Z.of_nat m)
                        | None => "Infinity"
                        end ++ " characters)")%string)
    else
      match (if STRICT_MODE cfg
             then find (fun p => test p trimmedCommand) DANGEROUS_PATTERNS
             else None) with
      | Some p =>
          Throw (mkError InvalidParams
                   ("Command contains potentially dangerous pattern (strict mode enabled): "
                      ++ source p)%string)
      | None => Ok trimmedCommand
      end.

(** [command.replace(/'/g, "'\"'\"'")] *)
Definition dq : string := String (ascii_of_nat 34) EmptyString.

Fixpoint escapeCommandForShell (command : string) : string :=
  match command with
  | EmptyString => EmptyString
  | String c r =>
      if Ascii.eqb c "'"
      then ("'" ++ dq ++ "'" ++ dq ++ "'" ++ escapeCommandForShell r)%string
      else String c (escapeCommandForShell r)
  end.

(** ** Remote and local paths *)

(** A settled promise. *)
Inductive Outcome (A : Type) :=
| Resolved (a : A)
| Rejected (e : McpError).
Arguments Resolved {A} a.
Arguments Rejected {A} e.

(** What the SFTP channel answers, as far as this program looks at it.
    Each operation calls back with an error message or with its result. *)
Record Sftp := mkSftp {
  realpath : string -> string + string;        (* err.message | resolvedPath *)
  fastPut : string -> string -> option string; (* local, remote: err.message *)
  sftpStat : string -> string + bool;          (* err.message | stats.isFile() *)
  fastGet : string -> string -> option string  (* remote, local: err.message *)
}.

Definition expandRemotePath (sftp : Sftp) (remotePath : string) : Outcome string :=
  if negb (startsWith remotePath "~") then Resolved remotePath
  else
    let pathToResolve := if String.eqb remotePath "~" then "~" else remotePath in
    match realpath sftp pathToResolve with
    | inl _ => Resolved remotePath
    | inr resolvedPath => Resolved resolvedPath
    end.

(** Node's [path], [os] and [fs] modules, as the validators consult them.
    [homedir] is [os.homedir()] and [resolve p] is [path.resolve(p)],
    which reads the working directory; [statIsFile p] is
    [fs.statSync(p).isFile()]; each of the three is [inl msg] when the
    call throws.  [accessR] and [accessW] tell whether [fs.accessSync]
    returns. *)
Record LocalFs := mkLocalFs {
  homedir : string + string;
  join : string -> string -> string;
  resolve : string -> string + string;
  dirname : string -> string;
  existsSync : string -> bool;
  statIsFile : string -> string + bool;
  accessR : string -> bool;
  accessW : string -> bool
}.

Record Validation := mkValidation {
  valid : bool;
  normalizedPath : string;
  error : option string;
  suggestion : option string
}.

(** The first lines of both validators: expand [~], then [path.resolve];
    [inl msg] when one of the calls throws. *)
Definition normalizeLocal (fs : LocalFs) (localPath : string) : string + string :=
  let expanded :=
    if startsWith localPath "~/"
    then match homedir fs with
         | inr home =>
             inr (join fs home (String.substring 2 (String.length localPath - 2) localPath))
         | inl msg => inl msg
         end
    else if String.eqb localPath "~" then homedir fs
    else inr localPath in
  match expanded with
  | inr normalized => resolve fs normalized
  | inl msg => inl msg
  end.

(** The result of the outer [catch] of both validators. *)
Definition validationError (localPath msg : string) : Validation :=
  mkValidation false localPath (Some ("Path validation error: " ++ msg)%string) None.

Definition validateLocalDownloadPath (fs : LocalFs) (localPath : string) : Validation :=
  match normalizeLocal fs localPath with
  | inl msg => validationError localPath msg
  | inr normalized =>
      let parentDir := dirname fs normalized in
      if negb (existsSync fs parentDir)
      then mkValidation false normalized
             (Some ("Local directory '" ++ parentDir ++ "' does not exist")%string)
             (Some ("Create it first with: mkdir -p " ++ dq ++ parentDir ++ dq)%string)
      else if negb (accessW fs parentDir)
      then mkValidation false normalized
             (Some ("Local directory '" ++ parentDir ++ "' is not writable")%string)
             (Some ("Check permissions with: ls -ld " ++ dq ++ parentDir ++ dq)%string)
      else mkValidation true normalized None None
  end.

Definition validateLocalUploadPath (fs : LocalFs) (localPath : string) : Validation :=
  match normalizeLocal fs localPath with
  | inl msg => validationError localPath msg
  | inr normalized =>
      if negb (existsSync fs normalized)
      then mkValidation false normalized
             (Some ("Local file '" ++ normalized ++ "' does not exist")%string)
             (Some "Check the file path and ensure the file exists")
      else
        match statIsFile fs normalized with
        | inl msg => validationError localPath msg
        | inr false =>
            mkValidation false normalized
              (Some ("Path '" ++ normalized ++ "' is not a file")%string)
              (Some "Ensure you're specifying a file, not a directory")
        | inr true =>
            if negb (accessR fs normalized)
            then mkValidation false normalized
                   (Some ("Local file '" ++ normalized ++ "' is not readable")%string)
                   (Some ("Check permissions with: ls -l " ++ dq ++ normalized ++ dq)%string)
            else mkValidation true normalized None None
        end
  end.

(** [`${v.error}. ${v.suggestion || ''}`.trim()] *)
Definition validationMessage (v : Validation) : string :=
  trim ((match error v with Some e => e | None => "undefined" end)
          ++ ". "
          ++ (match suggestion v with Some sg => sg | None => EmptyString end))%string.

(** ** execSshCommand

    One call of [execSshCommand] after its connection is acquired: the
    local variables of the closure, the timers and the callbacks that are
    still to come, and the calls made so far of [resolve] and [reject]. *)

Module Exec.
Import SSHConnectionPool.

Record Request := mkRequest {
  session : Conn;              (* conn *)
  command : string;
  isResolved : bool;
  timeoutPending : bool;       (* timeoutId is armed *)
  abortPending : bool;         (* abortTimeout is armed *)
  execPending : bool;          (* callback of conn.exec(command) to come *)
  streamOpen : bool;           (* stream listeners installed, no 'close' yet *)
  abortExecPending : bool;     (* callback of the pkill conn.exec to come *)
  abortStreamOpen : bool;      (* abortStream listener installed, no 'close' yet *)
  stdout : string;
  stderr : string;
  issued : list string;        (* commands given to conn.exec, oldest first *)
  settled : list (Outcome string) (* calls of resolve and reject, oldest first *)
}.

Inductive Event :=
| TimeoutFires                  (* timeoutId, after DEFAULT_TIMEOUT; the
                                   conn.exec of the abort command returns *)
| TimeoutFiresThrows            (* timeoutId; the conn.exec of the abort
                                   command throws, the client being closed *)
| ExecError (msg : string)      (* conn.exec(command) calls back with err *)
| ExecStream                    (* conn.exec(command) calls back with a stream *)
| StdoutData (data : string)
| StderrData (data : string)
| StreamClose (exitCode : Z)
| AbortTimeoutFires             (* abortTimeout, after 5000 ms *)
| AbortExecNoStream             (* pkill conn.exec calls back without a stream *)
| AbortExecStream               (* pkill conn.exec calls back with abortStream *)
| AbortStreamClose              (* 'close' of abortStream, a stream the
                                   program neither reads nor resumes *)
.

Definition timeoutError (cfg : Config) : McpError :=
  mkError InternalError
    ("Command execution timed out after " ++ string_of_Z (DEFAULT_TIMEOUT cfg) ++ "ms")%string.

Definition execError (msg : string) : McpError :=
  mkError InternalError ("SSH exec error: " ++ msg)%string.

Definition connectionError (msg : string) : McpError :=
  mkError InternalError ("SSH connection error: " ++ msg)%string.

Definition newline : string := String (ascii_of_nat 10) EmptyString.

(** [stderr || stdout || 'Command failed'] *)
Definition errorMsg (stdout stderr : string) : string :=
  if negb (String.length stderr =? 0)%nat then stderr
  else if negb (String.length stdout =? 0)%nat then stdout
  else "Command failed".

Definition commandFailed (exitCode : Z) (stdout stderr : string) : McpError :=
  mkError InternalError
    ("Command failed (exit code " ++ string_of_Z exitCode ++ "):" ++ newline
       ++ errorMsg stdout stderr)%string.

Definition abortCommand (command : string) : string :=
  ("timeout 3s pkill -f '" ++ escapeCommandForShell command ++ "' 2>/dev/null || true")%string.

(** The state right after [conn.exec(command, ...)] is issued on the
    acquired connection: [timeoutId] armed, nothing received yet. *)
Definition start (c : Conn) (cmd : string) : Request :=
  mkRequest c cmd false true false true false false false
            EmptyString EmptyString [cmd] [].

(** The state when [conn.exec(command, ...)] throws instead, as it does
    on a client whose connection is closed: the call is outside the
    [try], so nothing is reported and nothing released; [timeoutId] is
    armed already, and no callback of the command will come. *)
Definition startThrown (c : Conn) (cmd : string) : Request :=
  mkRequest c cmd false true false false false false false
            EmptyString EmptyString [cmd] [].

(** The body of the [timeoutId] callback when the [conn.exec] of the
    abort command throws: [isResolved] is set and [abortTimeout] armed,
    the command is given to [conn.exec], and the exception leaves the
    callback before [reject] is reached.  No callback of the abort
    command will come. *)
Definition onTimeoutThrows (x : Request) : Request :=
  if negb (isResolved x)
  then mkRequest (session x) (command x) true false true
         (execPending x) (streamOpen x) (abortExecPending x) (abortStreamOpen x)
         (stdout x) (stderr x)
         (issued x ++ [abortCommand (command x)])
         (settled x)
  else mkRequest (session x) (command x) (isResolved x) false (abortPending x)
         (execPending x) (streamOpen x) (abortExecPending x) (abortStreamOpen x)
         (stdout x) (stderr x) (issued x) (settled x).

(** The body of the [timeoutId] callback when the [conn.exec] of the
    abort command returns. *)
Definition onTimeout (cfg : Config) (x : Request) : Request :=
  if negb (isResolved x)
  then mkRequest (session x) (command x) true false true
         (execPending x) (streamOpen x) true (abortStreamOpen x)
         (stdout x) (stderr x)
         (issued x ++ [abortCommand (command x)])
         (settled x ++ [Rejected (timeoutError cfg)])
  else mkRequest (session x) (command x) (isResolved x) false (abortPending x)
         (execPending x) (streamOpen x) (abortExecPending x) (abortStreamOpen x)
         (stdout x) (stderr x) (issued x) (settled x).

(** The state after [isResolved = true; clearTimeout(timeoutId)] and one
    call of [resolve] or [reject], on the normal completion paths. *)
Definition finish (x : Request) (o : Outcome string) : Request :=
  mkRequest (session x) (command x) true false (abortPending x)
    false false (abortExecPending x) (abortStreamOpen x)
    (stdout x) (stderr x) (issued x) (settled x ++ [o]).

(** The body of the stream's 'close' listener once [isResolved] was
    found false. *)
Definition closeOutcome (exitCode : Z) (x : Request) : Outcome string :=
  if negb (exitCode =? 0)
  then Rejected (commandFailed exitCode (stdout x) (stderr x))
  else Resolved (stdout x).

(** One callback of the event loop, run at time [now].  A callback whose
    timer is not armed or whose listener is not installed does not run. *)
Definition handle (cfg : Config) (now : Z) (ev : Event) (s : State * Request)
  : State * Request :=
  let '(p, x) := s in
  match ev with
  | TimeoutFires =>
      if timeoutPending x then (p, onTimeout cfg x) else s
  | TimeoutFiresThrows =>
      if timeoutPending x then (p, onTimeoutThrows x) else s
  | ExecError msg =>
      if execPending x then
        if negb (isResolved x)
        then (returnConnection cfg now (session x) p, finish x (Rejected (execError msg)))
        else (p, mkRequest (session x) (command x) (isResolved x) (timeoutPending x)
                   (abortPending x) false (streamOpen x) (abortExecPending x)
                   (abortStreamOpen x) (stdout x) (stderr x) (issued x) (settled x))
      else s
  | ExecStream =>
      if execPending x
      then (p, mkRequest (session x) (command x) (isResolved x) (timeoutPending x)
                 (abortPending x) false true (abortExecPending x)
                 (abortStreamOpen x) (stdout x) (stderr x) (issued x) (settled x))
      else s
  | StdoutData data =>
      if streamOpen x
      then (p, mkRequest (session x) (command x) (isResolved x) (timeoutPending x)
                 (abortPending x) (execPending x) (streamOpen x) (abortExecPending x)
                 (abortStreamOpen x) (stdout x ++ data)%string (stderr x)
                 (issued x) (settled x))
      else s
  | StderrData data =>
      if streamOpen x
      then (p, mkRequest (session x) (command x) (isResolved x) (timeoutPending x)
                 (abortPending x) (execPending x) (streamOpen x) (abortExecPending x)
                 (abortStreamOpen x) (stdout x) (stderr x ++ data)%string
                 (issued x) (settled x))
      else s
  | StreamClose exitCode =>
      if streamOpen x then
        if negb (isResolved x)
        then (returnConnection cfg now (session x) p, finish x (closeOutcome exitCode x))
        else (p, mkRequest (session x) (command x) (isResolved x) (timeoutPending x)
                   (abortPending x) (execPending x) false (abortExecPending x)
                   (abortStreamOpen x) (stdout x) (stderr x) (issued x) (settled x))
      else s
  | AbortTimeoutFires =>
      if abortPending x
      then (returnConnection cfg now (session x) p,
            mkRequest (session x) (command x) (isResolved x) (timeoutPending x)
              false (execPending x) (streamOpen x) (abortExecPending x)
              (abortStreamOpen x) (stdout x) (stderr x) (issued x) (settled x))
      else s
  | AbortExecNoStream =>
      if abortExecPending x
      then (returnConnection cfg now (session x) p,
            mkRequest (session x) (command x) (isResolved x) (timeoutPending x)
              false (execPending x) (streamOpen x) false
              (abortStreamOpen x) (stdout x) (stderr x) (issued x) (settled x))
      else s
  | AbortExecStream =>
      if abortExecPending x
      then (p, mkRequest (session x) (command x) (isResolved x) (timeoutPending x)
                 (abortPending x) (execPending x) (streamOpen x) false
                 true (stdout x) (stderr x) (issued x) (settled x))
      else s
  | AbortStreamClose =>
      if abortStreamOpen x
      then (returnConnection cfg now (session x) p,
            mkRequest (session x) (command x) (isResolved x) (timeoutPending x)
              false (execPending x) (streamOpen x) (abortExecPending x)
              false (stdout x) (stderr x) (issued x) (settled x))
      else s
  end.

(** A run of the event loop: callbacks with the time each one runs at. *)
Fixpoint run (cfg : Config) (trace : list (Z * Event)) (s : State * Request)
  : State * Request :=
  match trace with
  | [] => s
  | (now, ev) :: rest => run cfg rest (handle cfg now ev s)
  end.

(** What the 'data' listeners have accumulated over a run of output
    events. *)
Definition isData (ev : Event) : bool :=
  match ev with
  | StdoutData _ | StderrData _ => true
  | _ => false
  end.

Fixpoint stdoutOf (trace : list (Z * Event)) : string :=
  match trace with
  | [] => EmptyString
  | (_, StdoutData data) :: rest => (data ++ stdoutOf rest)%string
  | _ :: rest => stdoutOf rest
  end.

Fixpoint stderrOf (trace : list (Z * Event)) : string :=
  match trace with
  | [] => EmptyString
  | (_, StderrData data) :: rest => (data ++ stderrOf rest)%string
  | _ :: rest => stderrOf rest
  end.

(** While the request is not settled, nothing was reported and the
    deadline timer is armed. *)
Definition unsettled (x : Request) : Prop :=
  isResolved x = false /\ settled x = [] /\ timeoutPending x = true.

(** The value of the promise: the first call of [resolve] or [reject]. *)
Definition promise (x : Request) : option (Outcome string) := hd_error (settled x).

(** [execSshCommand] up to the point where it hands over to the event
    loop: acquire, arm the timer, then issue the command.  [execThrows]
    is the message of the exception of [conn.exec(command, ...)], if it
    throws. *)
Definition execSshCommand (cfg : Config) (now : Z) (handshake : option string)
    (execThrows : option string) (cmd : string) (p : State)
  : State * (McpError + Request) :=
  match getConnection cfg now handshake p with
  | (p1, inl c) =>
      match execThrows with
      | None => (p1, inr (start c cmd))
      | Some _ => (p1, inr (startThrown c cmd))
      end
  | (p1, inr msg) => (p1, inl (connectionError msg))
  end.

End Exec.

(** ** File transfers and the tool handlers *)

(** What the outside answers during one request: reading the key file in
    [buildSshConfig], the handshake of a new connection, opening the SFTP
    channel, and the channel itself; and whether [conn.exec] or
    [conn.sftp] throws, as they do on a client whose connection is
    closed. *)
Record Remote := mkRemote {
  configError : option string;   (* readFile(KEY) fails with this message *)
  handshake : option string;     (* 'error' event of conn.connect *)
  sftpError : option string;     (* conn.sftp calls back with err *)
  channel : Sftp;
  execThrows : option string;    (* conn.exec(command) throws this *)
  sftpThrows : option string     (* conn.sftp throws this *)
}.

Module Transfer.
Import SSHConnectionPool.

Definition uploadFailure (msg expandedRemotePath : string) : string :=
  if includes msg "No such file" || includes msg "not found"
  then ("Upload failed: Remote directory may not exist. Verify the remote path '"
          ++ expandedRemotePath ++ "' or create the parent directory first.")%string
  else if includes msg "Permission denied"
  then ("Upload failed: Permission denied for remote path '" ++ expandedRemotePath
          ++ "'. Check file permissions on remote server.")%string
  else ("Upload failed: " ++ msg)%string.

(** [uploadFile], called at [now]; the transfer's callback runs at
    [done].  [None] stands for a promise that is never settled.  When
    [conn.sftp] throws, the [catch] rejects with the connection error and
    the client is not released. *)
Definition uploadFile (cfg : Config) (fs : LocalFs) (now done : Z) (r : Remote)
    (localPath remotePath : string) (p : State) : State * option (Outcome string) :=
  let v := validateLocalUploadPath fs localPath in
  if negb (valid v)
  then (p, Some (Rejected (mkError InvalidParams (validationMessage v))))
  else
    let normalizedLocalPath := normalizedPath v in
    match getConnection cfg now (handshake r) p with
    | (p1, inr msg) =>
        (p1, Some (Rejected (mkError InternalError ("Upload connection error: " ++ msg)%string)))
    | (p1, inl c) =>
        match sftpThrows r, sftpError r with
        | Some thrown, _ =>
            (p1, Some (Rejected (mkError InternalError ("Upload connection error: " ++ thrown)%string)))
        | None, Some msg =>
            (returnConnection cfg done c p1,
             Some (Rejected (mkError InternalError ("SFTP session error: " ++ msg)%string)))
        | None, None =>
            match expandRemotePath (channel r) remotePath with
            | Rejected _ => (p1, None)
            | Resolved expandedRemotePath =>
                let p2 := returnConnection cfg done c p1 in
                match fastPut (channel r) normalizedLocalPath expandedRemotePath with
                | Some msg =>
                    (p2, Some (Rejected (mkError InternalError
                                           (uploadFailure msg expandedRemotePath))))
                | None =>
                    (p2, Some (Resolved
                                 ("File uploaded successfully: " ++ normalizedLocalPath
                                    ++ " -> " ++ expandedRemotePath ++ " ("
                                    ++ string_of_Z (done - now) ++ "ms)")%string))
                end
            end
        end
    end.

Definition downloadFile (cfg : Config) (fs : LocalFs) (now done : Z) (r : Remote)
    (remotePath localPath : string) (p : State) : State * option (Outcome string) :=
  let v := validateLocalDownloadPath fs localPath in
  if negb (valid v)
  then (p, Some (Rejected (mkError InvalidParams (validationMessage v))))
  else
    let normalizedLocalPath := normalizedPath v in
    match getConnection cfg now (handshake r) p with
    | (p1, inr msg) =>
        (p1, Some (Rejected (mkError InternalError ("Download connection error: " ++ msg)%string)))
    | (p1, inl c) =>
        match sftpThrows r, sftpError r with
        | Some thrown, _ =>
            (p1, Some (Rejected (mkError InternalError ("Download connection error: " ++ thrown)%string)))
        | None, Some msg =>
            (returnConnection cfg done c p1,
             Some (Rejected (mkError InternalError ("SFTP session error: " ++ msg)%string)))
        | None, None =>
            match expandRemotePath (channel r) remotePath with
            | Rejected _ => (p1, None)
            | Resolved expandedRemotePath =>
                let p2 := returnConnection cfg done c p1 in
                match sftpStat (channel r) expandedRemotePath with
                | inl _ =>
                    (p2, Some (Rejected (mkError InvalidParams
                       ("Remote file '" ++ expandedRemotePath
                          ++ "' does not exist or is not accessible. Use the 'listFiles' tool to verify the file path.")%string)))
                | inr false =>
                    (p2, Some (Rejected (mkError InvalidParams
                       ("Remote path '" ++ expandedRemotePath
                          ++ "' is not a file (it's a directory). Specify a file path instead.")%string)))
                | inr true =>
                    match fastGet (channel r) expandedRemotePath normalizedLocalPath with
                    | Some msg =>
                        (p2, Some (Rejected (mkError InternalError
                                               ("Download failed: " ++ msg)%string)))
                    | None =>
                        (p2, Some (Resolved
                                     ("File downloaded successfully: " ++ expandedRemotePath
                                        ++ " -> " ++ normalizedLocalPath ++ " ("
                                        ++ string_of_Z (done - now) ++ "ms)")%string))
                    end
                end
            end
        end
    end.

End Transfer.

(** The process-wide state: [rateLimiter] and [connectionPool]. *)
Record World := mkWorld {
  limiter : RateLimiter.State;
  sessions : SSHConnectionPool.State
}.

Module Tools.
Import SSHConnectionPool.

(** [`${err?.message || err}`] for an [Error] whose message is [msg]. *)
Definition messageOf (msg : string) : string :=
  if (String.length msg =? 0)%nat then "Error" else msg.

(** The "exec" tool: either the request fails at once, or a command is
    now running on an acquired connection. *)
Definition exec (cfg : Config) (now : Z) (r : Remote) (command : string) (w : World)
  : World * (McpError + Exec.Request) :=
  match RateLimiter.checkLimit cfg now (limiter w) with
  | (l1, Throw e) => (mkWorld l1 (sessions w), inl e)
  | (l1, Ok _) =>
      match sanitizeCommand cfg command with
      | Throw e => (mkWorld l1 (sessions w), inl e)
      | Ok sanitizedCommand =>
          match configError r with
          | Some msg =>
              (mkWorld l1 (sessions w),
               inl (mkError InternalError ("Unexpected error: " ++ messageOf msg)%string))
          | None =>
              let '(p1, res) :=
                Exec.execSshCommand cfg now (handshake r) (execThrows r)
                  sanitizedCommand (sessions w) in
              (mkWorld l1 p1, res)
          end
      end
  end.

Definition upload (cfg : Config) (fs : LocalFs) (now done : Z) (r : Remote)
    (localPath remotePath : string) (w : World) : World * option (Outcome string) :=
  match RateLimiter.checkLimit cfg now (limiter w) with
  | (l1, Throw e) => (mkWorld l1 (sessions w), Some (Rejected e))
  | (l1, Ok _) =>
      match configError r with
      | Some msg =>
          (mkWorld l1 (sessions w),
           Some (Rejected (mkError InternalError ("Upload failed: " ++ messageOf msg)%string)))
      | None =>
          let '(p1, res) :=
            Transfer.uploadFile cfg fs now done r localPath remotePath (sessions w) in
          (mkWorld l1 p1, res)
      end
  end.

Definition download (cfg : Config) (fs : LocalFs) (now done : Z) (r : Remote)
    (remotePath localPath : string) (w : World) : World * option (Outcome string) :=
  match RateLimiter.checkLimit cfg now (limiter w) with
  | (l1, Throw e) => (mkWorld l1 (sessions w), Some (Rejected e))
  | (l1, Ok _) =>
      match configError r with
      | Some msg =>
          (mkWorld l1 (sessions w),
           Some (Rejected (mkError InternalError ("Download failed: " ++ messageOf msg)%string)))
      | None =>
          let '(p1, res) :=
            Transfer.downloadFile cfg fs now done r remotePath localPath (sessions w) in
          (mkWorld l1 p1, res)
      end
  end.

End Tools.
(** ** A sample environment

    A small local file system and a remote end, to run the definitions
    on: the only local directory is [/tmp], the only local file is
    [/tmp/data.csv], and the home directory of the remote user cannot be
    resolved. *)

Definition sampleFs : LocalFs :=
  mkLocalFs (inr "/home/user")
    (fun a b => (a ++ "/" ++ b)%string)
    (fun path => inr path)
    (fun path => if String.prefix "/tmp/" path then "/tmp" else "/nonexistent")
    (fun path => String.eqb path "/tmp" || String.eqb path "/tmp/data.csv")
    (fun path => inr (String.eqb path "/tmp/data.csv"))
    (fun _ => true)
    (fun _ => true).

Definition sampleSftp : Sftp :=
  mkSftp (fun _ => inl "Permission denied")
         (fun _ _ => None)
         (fun _ => inr true)
         (fun _ _ => None).

Definition sampleRemote : Remote := mkRemote None None None sampleSftp None None.

Definition freshWorld : World := mkWorld [] SSHConnectionPool.empty.

(** ** Bookkeeping over runs

    Measures read off a run of calls, used to state what the limiter and
    the pool guarantee over time. *)

(** The timestamps of the calls of a burst that were admitted, in call
    order. *)
Fixpoint admittedOf (times : list Z) (results : list (Result unit)) : list Z :=
  match times, results with
  | now :: times', r :: results' =>
      if isOk r then now :: admittedOf times' results' else admittedOf times' results'
  | _, _ => []
  end.

(** The clock does not go back over a burst. *)
Fixpoint nondecreasing (times : list Z) : Prop :=
  match times with
  | [] => True
  | t :: rest => Forall (fun u => t <= u) rest /\ nondecreasing rest
  end.

(** The number of releases a pool state has seen: each [returnConnection]
    either pushes one entry or closes one client. *)
Definition released (st : SSHConnectionPool.State) : nat :=
  List.length (SSHConnectionPool.pool st) + List.length (SSHConnectionPool.ended st).

(** The phases of one command execution, as the closure's variables show
    them.  [p0] is the pool state when the command was issued on client
    [c]. *)

(** No abort is under way. *)
Definition quiet (x : Exec.Request) : Prop :=
  Exec.abortPending x = false /\ Exec.abortExecPending x = false
  /\ Exec.abortStreamOpen x = false.

(** The command is running: nothing reported, nothing released. *)
Definition running (c : Conn) (cmd : string) (p0 : SSHConnectionPool.State)
    (s : SSHConnectionPool.State * Exec.Request) : Prop :=
  fst s = p0 /\ Exec.unsettled (snd s) /\ quiet (snd s)
  /\ Exec.issued (snd s) = [cmd] /\ Exec.command (snd s) = cmd /\ Exec.session (snd s) = c.

(** The command completed, or could not be started, before the deadline:
    one report [o], one release at time [t]. *)
Definition completed (cfg : Config) (c : Conn) (cmd : string) (p0 : SSHConnectionPool.State)
    (o : Outcome string) (t : Z) (s : SSHConnectionPool.State * Exec.Request) : Prop :=
  Exec.isResolved (snd s) = true /\ Exec.settled (snd s) = [o]
  /\ o <> Rejected (Exec.timeoutError cfg)
  /\ quiet (snd s) /\ Exec.timeoutPending (snd s) = false
  /\ Exec.issued (snd s) = [cmd]
  /\ fst s = SSHConnectionPool.returnConnection cfg t c p0.

(** The releases the abort of a timed-out request may still make: one by
    the secondary timer, one by the callback of the abort command. *)
Definition owed (x : Exec.Request) : nat :=
  Nat.b2n (Exec.abortPending x)
  + Nat.b2n (Exec.abortExecPending x || Exec.abortStreamOpen x).

(** The deadline timer has run: the abort command was given to
    [conn.exec]; the timeout is reported, or nothing is when that call
    threw. *)
Definition timedOut (cfg : Config) (c : Conn) (cmd : string)
    (s : SSHConnectionPool.State * Exec.Request) : Prop :=
  Exec.isResolved (snd s) = true
  /\ (Exec.settled (snd s) = [Rejected (Exec.timeoutError cfg)]
      \/ (Exec.settled (snd s) = [] /\ Exec.abortExecPending (snd s) = false
          /\ Exec.abortStreamOpen (snd s) = false))
  /\ Exec.issued (snd s) = [cmd; Exec.abortCommand cmd]
  /\ Exec.timeoutPending (snd s) = false
  /\ Exec.session (snd s) = c
  /\ Exec.abortExecPending (snd s) && Exec.abortStreamOpen (snd s) = false.

(** ** Reading a quoted word back

    How [sh] reads a word made of quoted pieces, which is what the remote
    shell does with the pattern of the abort command: between single
    quotes every character stands for itself; between double quotes every
    character other than [$], the backquote, the backslash and the double
    quote does; adjacent pieces are concatenated.  A word with anything
    outside quotes, or an open quote, is not read. *)

Inductive QuoteMode := Unquoted | InSingle | InDouble.

Fixpoint shellUnquote (mode : QuoteMode) (word : string) : option string :=
  match word with
  | EmptyString =>
      match mode with
      | Unquoted => Some EmptyString
      | _ => None
      end
  | String ch rest =>
      match mode with
      | Unquoted =>
          if Ascii.eqb ch "'" then shellUnquote InSingle rest
          else if Ascii.eqb ch "034" then shellUnquote InDouble rest
          else None
      | InSingle =>
          if Ascii.eqb ch "'" then shellUnquote Unquoted rest
          else option_map (String ch) (shellUnquote InSingle rest)
      | InDouble =>
          if Ascii.eqb ch "034" then shellUnquote Unquoted rest
          else if Ascii.eqb ch "$" || Ascii.eqb ch "`" || Ascii.eqb ch "\" then None
          else option_map (String ch) (shellUnquote InDouble rest)
      end
  end.

(** A run of white space. *)
Fixpoint allSpace (s : string) : bool :=
  match s with
  | EmptyString => true
  | String ch rest => isSpace ch && allSpace rest
  end.

(** The number of single quotes of a string. *)
Fixpoint countQuotes (s : string) : nat :=
  match s with
  | EmptyString => 0
  | String ch rest => (if Ascii.eqb ch "'" then 1 else 0) + countQuotes rest
  end.

(** ** Directory listing *)

(** One entry of [sftp.readdir]: [file.filename] and, of [file.attrs],
    [isDirectory()], [size] and [mtime]. *)
Record FileEntry := mkFileEntry {
  filename : string;
  isDirectory : bool;
  size : Z;
  mtime : Z
}.

Module Listing.
Import SSHConnectionPool.

(** [Array.prototype.join('\n')] *)
Fixpoint joinLines (lines : list string) : string :=
  match lines with
  | [] => EmptyString
  | [l] => l
  | l :: rest => (l ++ Exec.newline ++ joinLines rest)%string
  end.

(** One line of the listing.  [toISOString ms] is
    [new Date(ms).toISOString()], which throws a [RangeError] on a time
    value that is not a valid date: [None] then. *)
Definition fileLine (toISOString : Z -> option string) (file : FileEntry) : option string :=
  match toISOString (mtime file * 1000) with
  | Some modified =>
      Some ("[" ++ (if isDirectory file then "dir" else "file") ++ "] " ++ filename file
              ++ " (" ++ string_of_Z (size file) ++ " bytes, modified: "
              ++ modified ++ ")")%string
  | None => None
  end.

(** [list.map(...)]: the lines, unless the callback throws on an entry. *)
Fixpoint fileLines (toISOString : Z -> option string) (files : list FileEntry)
  : option (list string) :=
  match files with
  | [] => Some []
  | file :: rest =>
      match fileLine toISOString file with
      | Some line =>
          match fileLines toISOString rest with
          | Some lines => Some (line :: lines)
          | None => None
          end
      | None => None
      end
  end.

(** [listRemoteFiles], called at [now]; the callback of [readdir] runs at
    [done].  [readdir path] is what [sftp.readdir] calls back with: an
    error message or the entries.  When building the lines throws, the
    client is released already and the promise is never settled. *)
Definition listRemoteFiles (cfg : Config) (now done : Z) (r : Remote)
    (readdir : string -> string + list FileEntry) (toISOString : Z -> option string)
    (remotePath : string) (p : State) : State * option (Outcome string) :=
  match getConnection cfg now (handshake r) p with
  | (p1, inr msg) =>
      (p1, Some (Rejected (mkError InternalError
                             ("List files connection error: " ++ msg)%string)))
  | (p1, inl c) =>
      match sftpThrows r, sftpError r with
      | Some thrown, _ =>
          (p1, Some (Rejected (mkError InternalError ("List files connection error: " ++ thrown)%string)))
      | None, Some msg =>
          (returnConnection cfg done c p1,
           Some (Rejected (mkError InternalError ("SFTP session error: " ++ msg)%string)))
      | None, None =>
          match expandRemotePath (channel r) remotePath with
          | Rejected _ => (p1, None)
          | Resolved expandedRemotePath =>
              let p2 := returnConnection cfg done c p1 in
              match readdir expandedRemotePath with
              | inl msg =>
                  (p2, Some (Rejected (mkError InternalError
                                         ("List files failed: " ++ msg)%string)))
              | inr list =>
                  match fileLines toISOString list with
                  | Some lines =>
                      (p2, Some (Resolved
                                   ("Files in " ++ expandedRemotePath ++ ":" ++ Exec.newline
                                      ++ joinLines lines)%string))
                  | None => (p2, None)
                  end
              end
          end
      end
  end.

(** The "listFiles" tool. *)
Definition listFiles (cfg : Config) (now done : Z) (r : Remote)
    (readdir : string -> string + list FileEntry) (toISOString : Z -> option string)
    (remotePath : string) (w : World) : World * option (Outcome string) :=
  match RateLimiter.checkLimit cfg now (limiter w) with
  | (l1, Throw e) => (mkWorld l1 (sessions w), Some (Rejected e))
  | (l1, Ok _) =>
      match configError r with
      | Some msg =>
          (mkWorld l1 (sessions w),
           Some (Rejected (mkError InternalError
                             ("List files failed: " ++ Tools.messageOf msg)%string)))
      | None =>
          let '(p1, res) :=
            listRemoteFiles cfg now done r readdir toISOString remotePath (sessions w) in
          (mkWorld l1 p1, res)
      end
  end.

End Listing.

(** ** Command line and environment *)

(** What [parseInt] can return. *)
Inductive JsNumber := NaN | Num (z : Z) | PosInfinity | NegInfinity.

Module Settings.

(** [Record<string, string>] as the list of its assignments, the latest
    first; a lookup returns the latest value assigned to the key.  Only
    own properties are modelled: the program reads the keys it names
    itself, none of which [Object.prototype] has. *)
Definition Dict := list (string * string).

Fixpoint lookup (key : string) (config : Dict) : option string :=
  match config with
  | [] => None
  | (k, v) :: rest => if String.eqb k key then Some v else lookup key rest
  end.

(** [config[key] = value].  Assigning a string to [__proto__] creates no
    property. *)
Definition assign (key value : string) (config : Dict) : Dict :=
  if String.eqb key "__proto__" then config else (key, value) :: config.

(** The characters [.] does not match, among the code units below 256. *)
Definition isLineTerminator (ch : ascii) : bool :=
  Ascii.eqb ch "010" || Ascii.eqb ch "013".

Fixpoint noLineTerminator (s : string) : bool :=
  match s with
  | EmptyString => true
  | String ch rest => negb (isLineTerminator ch) && noLineTerminator rest
  end.

(** The text before the first [=] and the text after it. *)
Fixpoint splitAtEquals (s : string) : option (string * string) :=
  match s with
  | EmptyString => None
  | String ch rest =>
      if Ascii.eqb ch "="
      then Some (EmptyString, rest)
      else match splitAtEquals rest with
           | Some (k, v) => Some (String ch k, v)
           | None => None
           end
  end.

(** The match of the regular expression of [parseArgv] against the whole
    argument: two dashes, a key of one or more characters other than [=],
    an [=], and a value without line terminator.  The result is the two
    groups. *)
Definition matchArg (arg : string) : option (string * string) :=
  match arg with
  | String "-" (String "-" rest) =>
      match splitAtEquals rest with
      | Some (key, value) =>
          if negb (String.length key =? 0)%nat && noLineTerminator value
          then Some (key, value)
          else None
      | None => None
      end
  | _ => None
  end.

(** [parseArgv], on [process.argv.slice(2)]. *)
Fixpoint parseArgvFrom (args : list string) (config : Dict) : Dict :=
  match args with
  | [] => config
  | arg :: rest =>
      match matchArg arg with
      | Some (key, value) => parseArgvFrom rest (assign key value config)
      | None => parseArgvFrom rest config
      end
  end.

Definition parseArgv (args : list string) : Dict := parseArgvFrom args [].

(** A value that [||] keeps: a non-empty string. *)
Definition truthy (v : option string) : bool :=
  match v with
  | Some s => negb (String.length s =? 0)%nat
  | None => false
  end.




(** [validateConfig]: the message of the error it throws, if it does.
    [numberIsNaN s] is [isNaN(Number(s))]. *)
Definition configErrors (numberIsNaN : string -> bool) (config : Dict) : list string :=
  (if truthy (lookup "host" config) then [] else ["Missing required --host"])
    ++ (if truthy (lookup "user" config) then [] else ["Missing required --user"])
    ++ (match lookup "port" config with
        | Some port =>
            if truthy (Some port) && numberIsNaN port then ["Invalid --port"] else []
        | None => []
        end).

Definition validateConfig (numberIsNaN : string -> bool) (config : Dict) : option string :=
  match configErrors numberIsNaN config with
  | [] => None
  | errors => Some ("Configuration error:" ++ Exec.newline ++ Listing.joinLines errors)%string
  end.

(** [String.prototype.toLowerCase] on the code units below 256: the
    letters A to Z and the accented capitals from 192 to 222, the
    multiplication sign 215 apart. *)
Definition lowerChar (ch : ascii) : ascii :=
  let n := nat_of_ascii ch in
  if ((65 <=? n) && (n <=? 90) || (192 <=? n) && (n <=? 222) && negb (n =? 215))%nat
  then ascii_of_nat (n + 32)
  else ch.

Fixpoint toLowerCase (s : string) : string :=
  match s with
  | EmptyString => EmptyString
  | String ch rest => String (lowerChar ch) (toLowerCase rest)
  end.

(** The value of [MAX_CHARS] for a given [MAX_CHARS_RAW]; [None] is
    [Infinity]. *)
Definition maxChars (parseInt : string -> JsNumber) (raw : option string) : option nat :=
  match raw with
  | Some s =>
      if String.eqb (toLowerCase s) "none" then None
      else match parseInt s with
           | NaN => Some 1000%nat
           | Num parsed => if parsed <=? 0 then None else Some (Z.to_nat parsed)
           | PosInfinity => None
           | NegInfinity => None
           end
  | None => Some 1000%nat
  end.

(** The object [buildSshConfig] returns. *)
Record SshConfig := mkSshConfig {
  host : option string;
  port : JsNumber;
  username : option string;
  password : option string;
  privateKey : option string
}.

(** [buildSshConfig]: [readFile path] is what reading the key file
    gives, its text or an error message. *)
Definition buildSshConfig (HOST : option string) (PORT : JsNumber) (USER : option string)
    (PASSWORD KEY : option string) (readFile : string -> string + string)
  : string + SshConfig :=
  if truthy PASSWORD
  then inr (mkSshConfig HOST PORT USER PASSWORD None)
  else
    match KEY with
    | Some keyPath =>
        if truthy KEY
        then match readFile keyPath with
             | inl text => inr (mkSshConfig HOST PORT USER None (Some text))
             | inr msg => inl msg
             end
        else inr (mkSshConfig HOST PORT USER None None)
    | None => inr (mkSshConfig HOST PORT USER None None)
    end.


End Settings.

(** ** Facts about the rate window *)

Section RateWindow.
Import RateLimiter.
Variable cfg : Config.

Local Abbreviation W := (RATE_LIMIT_WINDOW cfg).
Local Abbreviation MAX := (RATE_LIMIT_MAX cfg).

Lemma inWindow_true ws t : inWindow ws t = true <-> ws < t.
Proof. unfold inWindow. apply Z.ltb_lt. Qed.

Lemma checkLimit_disabled now reqs :
  RATE_LIMIT_ENABLED cfg = false -> checkLimit cfg now reqs = (reqs, Ok tt).
Proof. intros H. unfold checkLimit. now rewrite H. Qed.

Lemma checkLimit_denied now reqs :
  RATE_LIMIT_ENABLED cfg = true ->
  MAX <= Z.of_nat (List.length (filter (inWindow (now - W)) reqs)) ->
  checkLimit cfg now reqs =
    (filter (inWindow (now - W)) reqs, Throw (rateLimitExceeded MAX W)).
Proof.
  intros He Hc. unfold checkLimit. rewrite He. cbn [negb].
  destruct (Z.geb_spec (Z.of_nat (List.length (filter (inWindow (now - W)) reqs))) MAX).
  - reflexivity.
  - lia.
Qed.

Lemma checkLimit_admitted now reqs :
  RATE_LIMIT_ENABLED cfg = true ->
  Z.of_nat (List.length (filter (inWindow (now - W)) reqs)) < MAX ->
  checkLimit cfg now reqs = (filter (inWindow (now - W)) reqs ++ [now], Ok tt).
Proof.
  intros He Hc. unfold checkLimit. rewrite He. cbn [negb].
  destruct (Z.geb_spec (Z.of_nat (List.length (filter (inWindow (now - W)) reqs))) MAX).
  - lia.
  - reflexivity.
Qed.

(** Pruning twice, at two window starts, keeps what both keep. *)
Lemma filter_inWindow_twice ws1 ws2 reqs :
  filter (inWindow ws2) (filter (inWindow ws1) reqs)
  = filter (fun t => inWindow ws1 t && inWindow ws2 t) reqs.
Proof.
  induction reqs as [|t reqs IH]; cbn [filter]; [reflexivity|].
  destruct (inWindow ws1 t); cbn [filter andb].
  - destruct (inWindow ws2 t); now rewrite IH.
  - exact IH.
Qed.

Lemma filter_and_length_le {A} (f g : A -> bool) l :
  (List.length (filter (fun x => f x && g x) l) <= List.length (filter g l))%nat.
Proof.
  induction l as [|x l IH]; cbn [filter]; [lia|].
  destruct (f x), (g x); cbn [andb List.length]; lia.
Qed.

Lemma filter_all_true {A} (f : A -> bool) l :
  Forall (fun x => f x = true) l -> filter f l = l.
Proof.
  induction 1 as [|x l Hx _ IH]; cbn [filter]; [reflexivity|].
  now rewrite Hx, IH.
Qed.

Lemma filter_all_false {A} (f : A -> bool) l :
  Forall (fun x => f x = false) l -> filter f l = [].
Proof.
  induction 1 as [|x l Hx _ IH]; cbn [filter]; [reflexivity|].
  now rewrite Hx, IH.
Qed.


Lemma checkAll_app times1 times2 reqs :
  checkAll cfg (times1 ++ times2) reqs =
    let '(reqs1, rs1) := checkAll cfg times1 reqs in
    let '(reqs2, rs2) := checkAll cfg times2 reqs1 in
    (reqs2, rs1 ++ rs2).
Proof.
  revert reqs. induction times1 as [|t times1 IH]; intros reqs; cbn [checkAll app].
  - now destruct (checkAll cfg times2 reqs).
  - destruct (checkLimit cfg t reqs) as [reqs1 r]. rewrite IH.
    destruct (checkAll cfg times1 reqs1) as [reqs2 rs].
    now destruct (checkAll cfg times2 reqs2).
Qed.

(** Timestamps that all lie in one window [lo, lo + W) survive the
    pruning done at any time of that window. *)
Lemma same_window_kept lo now reqs :
  lo <= now < lo + W ->
  Forall (fun t => lo <= t < lo + W) reqs ->
  filter (inWindow (now - W)) reqs = reqs.
Proof.
  intros Hn Hall. apply filter_all_true.
  eapply Forall_impl; [|exact Hall]. cbn beta. intros t Ht.
  apply inWindow_true. lia.
Qed.

(** A burst inside one window is admitted as long as the budget lasts. *)
Lemma burst_admitted lo times : forall reqs,
  RATE_LIMIT_ENABLED cfg = true ->
  Forall (fun t => lo <= t < lo + W) (reqs ++ times) ->
  Z.of_nat (List.length reqs + List.length times) <= MAX ->
  checkAll cfg times reqs = (reqs ++ times, repeat (Ok tt) (List.length times)).
Proof.
  induction times as [|t times IH]; intros reqs He Hall Hlen; cbn [checkAll].
  - now rewrite app_nil_r.
  - apply Forall_app in Hall as Hsplit. destruct Hsplit as [Hreqs Htimes].
    inversion Htimes as [|? ? Ht Hrest]; subst.
    cbn [List.length] in Hlen.
    rewrite checkLimit_admitted, (same_window_kept lo); try assumption.
    + rewrite IH; try assumption.
      * now rewrite <- app_assoc.
      * now rewrite <- app_assoc.
      * rewrite length_app. cbn [List.length]. lia.
    + rewrite (same_window_kept lo); try assumption. lia.
Qed.

(** Without any assumption on the clock: from an empty window, the
    first [MAX] calls are admitted. *)
Lemma budget_admitted times : forall reqs,
  RATE_LIMIT_ENABLED cfg = true ->
  Z.of_nat (List.length reqs + List.length times) <= MAX ->
  Forall (fun r => r = Ok tt) (snd (checkAll cfg times reqs))
  /\ (List.length (fst (checkAll cfg times reqs)) <= List.length reqs + List.length times)%nat.
Proof.
  induction times as [|t times IH]; intros reqs He Hlen; cbn [checkAll].
  - cbn. split; [constructor | lia].
  - cbn [List.length] in Hlen.
    pose proof (filter_length_le (inWindow (t - W)) reqs) as Hle.
    rewrite checkLimit_admitted by (try assumption; lia).
    specialize (IH (filter (inWindow (t - W)) reqs ++ [t]) He).
    destruct (checkAll cfg times (filter (inWindow (t - W)) reqs ++ [t])) as [reqs2 rs].
    cbn [fst snd] in *. rewrite length_app in IH. cbn [List.length] in IH.
    destruct IH as [IH1 IH2]; [lia|].
    split; [constructor; [reflexivity | exact IH1] | cbn [List.length]; lia].
Qed.

End RateWindow.

(** ** The claims on the rate limiter *)

(** C4. [checkLimit] with rate limiting disabled succeeds and leaves the
    window as it is.  With rate limiting enabled it first prunes the
    window, keeping exactly the timestamps later than [now - windowMs]
    (so every older one is dropped); it throws the rate-limit error, an
    invalid-request error whose message reads "Rate limit exceeded: [max]
    requests per [windowMs]ms", if and only if the number of
    timestamps kept is at least [max], and the window is then the pruned
    one; otherwise it appends [now] to the pruned window and returns.
    Consequently, from an empty window, [max] calls succeed whatever the
    clock says; when they and one more call fall in one window of length
    [windowMs], that further call is denied; and, for a positive [max],
    a call made once [windowMs] has elapsed since each of them succeeds. *)
Theorem checkLimit_sliding_window (cfg : Config) :
  let W := RATE_LIMIT_WINDOW cfg in
  let MAX := RATE_LIMIT_MAX cfg in
  let denial :=
    mkError InvalidRequest
      ("Rate limit exceeded: " ++ string_of_Z MAX ++ " requests per "
         ++ string_of_Z W ++ "ms")%string in
  (RATE_LIMIT_ENABLED cfg = false ->
     forall now reqs, RateLimiter.checkLimit cfg now reqs = (reqs, Ok tt))
  /\
  (RATE_LIMIT_ENABLED cfg = true ->
     forall now reqs,
       let kept := filter (RateLimiter.inWindow (now - W)) reqs in
       (forall t, In t kept <-> In t reqs /\ now - W < t)
       /\ (forall t, In t reqs -> t < now - W -> ~ In t kept)
       /\ (isOk (snd (RateLimiter.checkLimit cfg now reqs)) = false
           <-> MAX <= Z.of_nat (List.length kept))
       /\ (MAX <= Z.of_nat (List.length kept) ->
           RateLimiter.checkLimit cfg now reqs
           = (kept, Throw denial))
       /\ (Z.of_nat (List.length kept) < MAX ->
           RateLimiter.checkLimit cfg now reqs = (kept ++ [now], Ok tt)))
  /\
  (RATE_LIMIT_ENABLED cfg = true ->
     forall times, MAX = Z.of_nat (List.length times) ->
       Forall (fun r => r = Ok tt) (snd (RateLimiter.checkAll cfg times []))
       /\ (forall lo now,
             Forall (fun t => lo <= t < lo + W) (times ++ [now]) ->
             RateLimiter.checkAll cfg (times ++ [now]) []
             = (times, repeat (Ok tt) (List.length times)
                         ++ [Throw denial]))
       /\ (0 < MAX ->
           forall later, Forall (fun t => t + W <= later) times ->
             RateLimiter.checkLimit cfg later times = ([later], Ok tt))).
Proof.
  intros W MAX denial. subst W MAX denial. split; [|split].
  - intros Hd now reqs. now apply checkLimit_disabled.
  - intros He now reqs kept.
    assert (Hin : forall t, In t kept <-> In t reqs /\ now - RATE_LIMIT_WINDOW cfg < t).
    { intros t. unfold kept. rewrite filter_In, inWindow_true. reflexivity. }
    split; [exact Hin|]. split.
    { intros t _ Hold Hk. apply Hin in Hk. lia. }
    destruct (Z_lt_le_dec (Z.of_nat (List.length kept)) (RATE_LIMIT_MAX cfg)) as [Hlt|Hge].
    + pose proof (checkLimit_admitted cfg now reqs He Hlt) as Heq.
      split; [|split].
      * rewrite Heq. cbn. split; [discriminate | lia].
      * lia.
      * intros _. exact Heq.
    + pose proof (checkLimit_denied cfg now reqs He Hge) as Heq.
      split; [|split].
      * rewrite Heq. cbn. split; [intros _; exact Hge | reflexivity].
      * intros _. exact Heq.
      * lia.
  - intros He times Hmax. split; [|split].
    + apply (budget_admitted cfg times []); [exact He|]. cbn [List.length]. lia.
    + intros lo now Hall. rewrite checkAll_app.
      apply Forall_app in Hall as Hsplit. destruct Hsplit as [Htimes Hnow].
      inversion Hnow as [|? ? Hn _]; subst.
      rewrite (burst_admitted cfg lo times []); try assumption.
      2:{ cbn [List.length]. lia. }
      cbn [app RateLimiter.checkAll].
      rewrite checkLimit_denied; try assumption.
      * rewrite (same_window_kept cfg lo); [reflexivity | exact Hn | exact Htimes].
      * rewrite (same_window_kept cfg lo); [lia | exact Hn | exact Htimes].
    + intros Hpos later Hold.
      assert (Hnone : filter (RateLimiter.inWindow (later - RATE_LIMIT_WINDOW cfg)) times = []).
      { apply filter_all_false. eapply Forall_impl; [|exact Hold]. cbn beta.
        intros t Ht. unfold RateLimiter.inWindow. apply Z.ltb_ge. lia. }
      rewrite checkLimit_admitted; try assumption.
      * now rewrite Hnone.
      * rewrite Hnone. cbn. lia.
Qed.

Lemma checkLimit_sliding_window_witness :
  RateLimiter.checkAll scenarioConfig [0; 1; 2; 3] []
  = ([0; 1; 2], [Ok tt; Ok tt; Ok tt;
                 Throw (mkError InvalidRequest "Rate limit exceeded: 3 requests per 5000ms")])
  /\ RateLimiter.checkLimit scenarioConfig 5002 [0; 1; 2] = ([5002], Ok tt).
Proof.
  destruct (checkLimit_sliding_window scenarioConfig) as [_ [_ H]].
  destruct (H eq_refl [0; 1; 2] eq_refl) as [_ [Hburst Hlater]].
  split.
  - apply (Hburst 0 3). repeat constructor; cbn; lia.
  - apply Hlater; [reflexivity|]. repeat constructor; cbn; lia.
Defined.

(** Pruning at [now] and then at a later time is pruning at the later
    time. *)
Lemma prune_then_prune (W now later : Z) (reqs : list Z) :
  now <= later ->
  filter (RateLimiter.inWindow (later - W)) (filter (RateLimiter.inWindow (now - W)) reqs)
  = filter (RateLimiter.inWindow (later - W)) reqs.
Proof.
  intros Hle. induction reqs as [|t reqs IH]; cbn [filter]; [reflexivity|].
  destruct (RateLimiter.inWindow (now - W) t) eqn:E1; cbn [filter].
  - now rewrite IH.
  - rewrite IH.
    destruct (RateLimiter.inWindow (later - W) t) eqn:E2; [|reflexivity].
    apply inWindow_true in E2. unfold RateLimiter.inWindow in E1.
    apply Z.ltb_ge in E1. lia.
Qed.

(** [checkLimit] decides on the pruned window only. *)
Lemma checkLimit_ok_iff (cfg : Config) (now : Z) (reqs : list Z) :
  RATE_LIMIT_ENABLED cfg = true ->
  (isOk (snd (RateLimiter.checkLimit cfg now reqs)) = true
   <-> Z.of_nat (List.length (filter (RateLimiter.inWindow (now - RATE_LIMIT_WINDOW cfg)) reqs))
       < RATE_LIMIT_MAX cfg).
Proof.
  intros He.
  destruct (Z_lt_le_dec
              (Z.of_nat (List.length (filter (RateLimiter.inWindow (now - RATE_LIMIT_WINDOW cfg)) reqs)))
              (RATE_LIMIT_MAX cfg)) as [Hlt|Hge].
  - rewrite checkLimit_admitted by assumption. cbn. split; [intros _; exact Hlt | reflexivity].
  - rewrite checkLimit_denied by assumption. cbn. split; [discriminate | lia].
Qed.

(** C10. When [checkLimit] throws, [now] is not recorded: the window it
    leaves is the old one pruned at [now - windowMs], with nothing added.
    A later call that the old window would have admitted is admitted from
    the window the denial left, and when the clock has not gone back the
    later call behaves exactly as if the denied call had never been made. *)
Theorem denied_check_records_nothing (cfg : Config) (now : Z) (reqs : list Z) (e : McpError) :
  snd (RateLimiter.checkLimit cfg now reqs) = Throw e ->
  let reqs' := fst (RateLimiter.checkLimit cfg now reqs) in
  reqs' = filter (RateLimiter.inWindow (now - RATE_LIMIT_WINDOW cfg)) reqs
  /\ (List.length reqs' <= List.length reqs)%nat
  /\ (forall t, In t reqs' -> In t reqs)
  /\ (forall later,
        isOk (snd (RateLimiter.checkLimit cfg later reqs)) = true ->
        isOk (snd (RateLimiter.checkLimit cfg later reqs')) = true)
  /\ (forall later, now <= later ->
        RateLimiter.checkLimit cfg later reqs' = RateLimiter.checkLimit cfg later reqs).
Proof.
  intros Hthrow reqs'.
  destruct (RATE_LIMIT_ENABLED cfg) eqn:He.
  2:{ rewrite checkLimit_disabled in Hthrow by assumption. discriminate. }
  assert (Hpruned : reqs' = filter (RateLimiter.inWindow (now - RATE_LIMIT_WINDOW cfg)) reqs).
  { subst reqs'.
    destruct (Z_lt_le_dec
                (Z.of_nat (List.length (filter (RateLimiter.inWindow (now - RATE_LIMIT_WINDOW cfg)) reqs)))
                (RATE_LIMIT_MAX cfg)) as [Hlt|Hge].
    - rewrite checkLimit_admitted in Hthrow by assumption. discriminate.
    - now rewrite checkLimit_denied by assumption. }
  split; [exact Hpruned|]. rewrite Hpruned. clear Hpruned reqs' Hthrow.
  split; [apply filter_length_le|].
  split; [intros t Ht; now apply filter_In in Ht|].
  split.
  - intros later Hok. apply checkLimit_ok_iff in Hok; [|assumption].
    apply checkLimit_ok_iff; [assumption|].
    rewrite filter_inWindow_twice.
    pose proof (filter_and_length_le
                  (RateLimiter.inWindow (now - RATE_LIMIT_WINDOW cfg))
                  (RateLimiter.inWindow (later - RATE_LIMIT_WINDOW cfg)) reqs).
    lia.
  - intros later Hle. unfold RateLimiter.checkLimit. rewrite He. cbn [negb].
    now rewrite prune_then_prune.
Qed.

Lemma denied_check_records_nothing_witness :
  fst (RateLimiter.checkLimit scenarioConfig 3 [0; 1; 2]) = [0; 1; 2]
  /\ RateLimiter.checkLimit scenarioConfig 5001 [0; 1; 2] = ([2; 5001], Ok tt).
Proof.
  destruct (denied_check_records_nothing scenarioConfig 3 [0; 1; 2]
              (RateLimiter.rateLimitExceeded 3 5000) eq_refl)
    as [Hsame [_ [_ [_ Hlater]]]].
  split.
  - exact Hsame.
  - rewrite <- (Hlater 5001) by lia. rewrite Hsame. reflexivity.
Defined.

(** ** Facts about the pool *)

Section Pool.
Import SSHConnectionPool.
Variable cfg : Config.

Lemma pop_nil {A} : pop (@nil A) = None.
Proof. reflexivity. Qed.

Lemma pop_snoc {A} (l : list A) (x : A) : pop (l ++ [x]) = Some (l, x).
Proof. unfold pop. rewrite rev_app_distr. cbn. now rewrite rev_involutive. Qed.

Lemma expired_spec now pooled :
  expired cfg now pooled = true <-> now - lastUsed pooled > POOL_TTL cfg.
Proof. unfold expired. rewrite Z.gtb_ltb, Z.ltb_lt. lia. Qed.

Lemma returnConnection_disabled now c st :
  POOL_ENABLED cfg = false -> returnConnection cfg now c st = endConnection c st.
Proof. intros H. unfold returnConnection. now rewrite H. Qed.

Lemma returnConnection_full now c st :
  POOL_ENABLED cfg = true ->
  POOL_MAX_SIZE cfg <= Z.of_nat (List.length (pool st)) ->
  returnConnection cfg now c st = endConnection c st.
Proof.
  intros He Hfull. unfold returnConnection. rewrite He. cbn [negb].
  destruct (Z.geb_spec (Z.of_nat (List.length (pool st))) (POOL_MAX_SIZE cfg)); [reflexivity | lia].
Qed.

Lemma returnConnection_room now c st :
  POOL_ENABLED cfg = true ->
  Z.of_nat (List.length (pool st)) < POOL_MAX_SIZE cfg ->
  returnConnection cfg now c st
  = mkState (pool st ++ [mkPooled c now]) (ended st) (connects st).
Proof.
  intros He Hroom. unfold returnConnection. rewrite He. cbn [negb].
  destruct (Z.geb_spec (Z.of_nat (List.length (pool st))) (POOL_MAX_SIZE cfg)); [lia | reflexivity].
Qed.

(** Every release either queues the client or closes it, never both. *)
Lemma returnConnection_cases now c st :
  returnConnection cfg now c st = endConnection c st
  \/ (POOL_ENABLED cfg = true
      /\ Z.of_nat (List.length (pool st)) < POOL_MAX_SIZE cfg
      /\ returnConnection cfg now c st
         = mkState (pool st ++ [mkPooled c now]) (ended st) (connects st)).
Proof.
  destruct (POOL_ENABLED cfg) eqn:He.
  - destruct (Z_lt_le_dec (Z.of_nat (List.length (pool st))) (POOL_MAX_SIZE cfg)).
    + right. auto using returnConnection_room.
    + left. now apply returnConnection_full.
  - left. now apply returnConnection_disabled.
Qed.

Lemma returnConnection_bound now c st :
  Z.of_nat (List.length (pool st)) <= POOL_MAX_SIZE cfg ->
  Z.of_nat (List.length (pool (returnConnection cfg now c st))) <= POOL_MAX_SIZE cfg.
Proof.
  intros Hb. destruct (returnConnection_cases now c st) as [E | [_ [Hroom E]]]; rewrite E; cbn.
  - exact Hb.
  - rewrite length_app. cbn. lia.
Qed.

Lemma getConnection_pool_le now hs st :
  (List.length (pool (fst (getConnection cfg now hs st))) <= List.length (pool st))%nat.
Proof.
  unfold getConnection. destruct (POOL_ENABLED cfg); cbn [negb].
  - cbn [cleanupExpired pool].
    pose proof (filter_length_le (fun pooled => negb (expired cfg now pooled)) (pool st)) as Hle.
    unfold pop.
    destruct (rev (filter (fun pooled => negb (expired cfg now pooled)) (pool st))) as [|x r] eqn:Er.
    + cbn. exact Hle.
    + cbn. apply (f_equal (@List.length _)) in Er. rewrite length_rev in Er.
      cbn in Er. rewrite length_rev. lia.
  - cbn. lia.
Qed.

Lemma calls_bound ks : forall st,
  Z.of_nat (List.length (pool st)) <= POOL_MAX_SIZE cfg ->
  Z.of_nat (List.length (pool (calls cfg ks st))) <= POOL_MAX_SIZE cfg.
Proof.
  induction ks as [|k ks IH]; intros st Hb; cbn [calls]; [exact Hb|].
  apply IH. destruct k as [now hs | now c |]; cbn [call].
  - pose proof (getConnection_pool_le now hs st). lia.
  - now apply returnConnection_bound.
  - cbn. lia.
Qed.

(** Releasing into a pool with room for all: all are queued, in order. *)
Lemma returnAll_room rs : forall st,
  POOL_ENABLED cfg = true ->
  Z.of_nat (List.length (pool st) + List.length rs) <= POOL_MAX_SIZE cfg ->
  returnAll cfg rs st
  = mkState (pool st ++ map (fun r => mkPooled (snd r) (fst r)) rs) (ended st) (connects st).
Proof.
  induction rs as [|[now c] rs IH]; intros st He Hlen; cbn [returnAll map].
  - rewrite app_nil_r. now destruct st.
  - cbn [List.length] in Hlen. rewrite returnConnection_room by (try assumption; lia).
    rewrite IH; try assumption.
    + cbn. now rewrite <- app_assoc.
    + cbn. rewrite length_app. cbn. lia.
Qed.

(** Releasing into a full pool: all are closed, in order. *)
Lemma returnAll_full rs : forall st,
  POOL_ENABLED cfg = true ->
  POOL_MAX_SIZE cfg <= Z.of_nat (List.length (pool st)) ->
  returnAll cfg rs st = mkState (pool st) (ended st ++ map snd rs) (connects st).
Proof.
  induction rs as [|[now c] rs IH]; intros st He Hfull; cbn [returnAll map].
  - rewrite app_nil_r. now destruct st.
  - rewrite returnConnection_full by assumption.
    rewrite IH; try assumption. cbn. now rewrite <- app_assoc.
Qed.

Lemma returnAll_app rs1 rs2 st :
  returnAll cfg (rs1 ++ rs2) st = returnAll cfg rs2 (returnAll cfg rs1 st).
Proof.
  revert st. induction rs1 as [|[now c] rs1 IH]; intros st; cbn [returnAll app].
  - reflexivity.
  - apply IH.
Qed.

End Pool.

(** ** The claims on the pool *)

(** C5. [returnConnection] with pooling disabled closes the client and
    leaves the pool alone.  With pooling enabled, a pool that already
    holds [maxSize] entries (or more) is left as it is and the client is
    closed; otherwise the client is pushed at the end of the pool with
    the current time as its last-used time, and is not closed.  Hence
    releasing [N + 1] clients into an empty pool of [maxSize = N] queues
    the first [N] and closes the last one; and no sequence of pool calls
    takes a pool within [maxSize] beyond it. *)
Theorem returnConnection_capacity (cfg : Config) :
  (POOL_ENABLED cfg = false ->
     forall now c st,
       SSHConnectionPool.returnConnection cfg now c st
       = SSHConnectionPool.mkState (SSHConnectionPool.pool st)
           (SSHConnectionPool.ended st ++ [c]) (SSHConnectionPool.connects st))
  /\
  (POOL_ENABLED cfg = true ->
     forall now c st,
       (POOL_MAX_SIZE cfg <= Z.of_nat (List.length (SSHConnectionPool.pool st)) ->
        SSHConnectionPool.returnConnection cfg now c st
        = SSHConnectionPool.mkState (SSHConnectionPool.pool st)
            (SSHConnectionPool.ended st ++ [c]) (SSHConnectionPool.connects st))
       /\ (Z.of_nat (List.length (SSHConnectionPool.pool st)) < POOL_MAX_SIZE cfg ->
           SSHConnectionPool.returnConnection cfg now c st
           = SSHConnectionPool.mkState (SSHConnectionPool.pool st ++ [mkPooled c now])
               (SSHConnectionPool.ended st) (SSHConnectionPool.connects st)))
  /\
  (POOL_ENABLED cfg = true ->
     forall (N : nat) rs last,
       POOL_MAX_SIZE cfg = Z.of_nat N ->
       List.length rs = N ->
       let st := SSHConnectionPool.returnAll cfg (rs ++ [last]) SSHConnectionPool.empty in
       SSHConnectionPool.pool st = map (fun r => mkPooled (snd r) (fst r)) rs
       /\ List.length (SSHConnectionPool.pool st) = N
       /\ SSHConnectionPool.ended st = [snd last])
  /\
  (forall ks st,
     Z.of_nat (List.length (SSHConnectionPool.pool st)) <= POOL_MAX_SIZE cfg ->
     Z.of_nat (List.length (SSHConnectionPool.pool (SSHConnectionPool.calls cfg ks st)))
     <= POOL_MAX_SIZE cfg).
Proof.
  split; [|split; [|split]].
  - intros Hd now c st. now apply returnConnection_disabled.
  - intros He now c st. split; intros H.
    + now apply returnConnection_full.
    + now apply returnConnection_room.
  - intros He N rs [now c] HN Hlen st. subst st.
    rewrite returnAll_app, (returnAll_room cfg rs SSHConnectionPool.empty); try assumption.
    2:{ cbn [SSHConnectionPool.pool SSHConnectionPool.empty List.length Nat.add]. lia. }
    cbn [SSHConnectionPool.returnAll SSHConnectionPool.empty SSHConnectionPool.pool
         SSHConnectionPool.ended SSHConnectionPool.connects app].
    rewrite returnConnection_full; try assumption.
    2:{ cbn [SSHConnectionPool.pool app]. rewrite length_map. lia. }
    cbn [SSHConnectionPool.endConnection SSHConnectionPool.pool SSHConnectionPool.ended
         app snd].
    rewrite length_map. auto.
  - intros ks st. apply calls_bound.
Qed.

Lemma returnConnection_capacity_witness :
  let st := SSHConnectionPool.returnAll scenarioConfig [(10, 0%nat); (20, 1%nat)]
              SSHConnectionPool.empty in
  SSHConnectionPool.pool st = [mkPooled 0%nat 10]
  /\ List.length (SSHConnectionPool.pool st) = 1%nat
  /\ SSHConnectionPool.ended st = [1%nat].
Proof.
  destruct (returnConnection_capacity scenarioConfig) as [_ [_ [H _]]].
  exact (H eq_refl 1%nat [(10, 0%nat)] (20, 1%nat) eq_refl eq_refl).
Defined.

Section Acquire.
Import SSHConnectionPool.
Variable cfg : Config.

Lemma getConnection_disabled now hs st :
  POOL_ENABLED cfg = false -> getConnection cfg now hs st = createNewConnection hs st.
Proof. intros H. unfold getConnection. now rewrite H. Qed.

Lemma getConnection_reuse now hs st rest pooled :
  POOL_ENABLED cfg = true ->
  filter (fun p => negb (expired cfg now p)) (pool st) = rest ++ [pooled] ->
  getConnection cfg now hs st
  = (mkState rest (ended st ++ map conn (filter (expired cfg now) (pool st))) (connects st),
     inl (conn pooled)).
Proof.
  intros He Hlive. unfold getConnection. rewrite He. cbn [negb].
  cbn [cleanupExpired pool ended connects]. now rewrite Hlive, pop_snoc.
Qed.

Lemma getConnection_fresh now hs st :
  POOL_ENABLED cfg = true ->
  filter (fun p => negb (expired cfg now p)) (pool st) = [] ->
  getConnection cfg now hs st
  = createNewConnection hs
      (mkState [] (ended st ++ map conn (filter (expired cfg now) (pool st))) (connects st)).
Proof.
  intros He Hlive. unfold getConnection. rewrite He. cbn [negb].
  unfold cleanupExpired. cbn [pool ended connects]. now rewrite Hlive, pop_nil.
Qed.

(** An acquisition always shows in the state: either an entry leaves the
    pool or a client is constructed. *)
Lemma getConnection_touches now hs st :
  (List.length (pool (fst (getConnection cfg now hs st))) < List.length (pool st))%nat
  \/ connects (fst (getConnection cfg now hs st)) = S (connects st).
Proof.
  destruct (POOL_ENABLED cfg) eqn:He.
  - pose proof (filter_length_le (fun p => negb (expired cfg now p)) (pool st)) as Hle.
    destruct (rev (filter (fun p => negb (expired cfg now p)) (pool st))) as [|x r] eqn:Er.
    + apply (f_equal (@rev _)) in Er. rewrite rev_involutive in Er. cbn in Er.
      rewrite getConnection_fresh by assumption. right. reflexivity.
    + apply (f_equal (@rev _)) in Er. rewrite rev_involutive in Er. cbn [rev] in Er.
      rewrite (getConnection_reuse now hs st (rev r) x) by assumption.
      left. cbn [fst pool]. rewrite Er, length_app in Hle. cbn in Hle. lia.
  - rewrite getConnection_disabled by assumption. right. reflexivity.
Qed.

End Acquire.

(** C6. [getConnection] with pooling disabled constructs a client and
    does not look at the pool.  With pooling enabled it first closes and
    removes every entry whose idle time [now - lastUsed] exceeds [ttlMs];
    if entries remain, the last one of the array, which is the one pushed
    most recently, is removed and its client returned, and no client is
    constructed; if none remains, a client is constructed.  In
    particular a client released into a pool with room is the one handed
    out by the next acquisition, as long as it has not expired. *)
Theorem getConnection_prune_then_reuse (cfg : Config) (now : Z) (hs : option string)
    (st : SSHConnectionPool.State) :
  let live := filter (fun p => negb (SSHConnectionPool.expired cfg now p))
                (SSHConnectionPool.pool st) in
  let dead := filter (SSHConnectionPool.expired cfg now) (SSHConnectionPool.pool st) in
  let fresh := match hs with None => inl (SSHConnectionPool.connects st) | Some msg => inr msg end in
  (forall p, In p dead <-> In p (SSHConnectionPool.pool st) /\ now - lastUsed p > POOL_TTL cfg)
  /\ (forall p, In p live <-> In p (SSHConnectionPool.pool st) /\ now - lastUsed p <= POOL_TTL cfg)
  /\ (POOL_ENABLED cfg = false ->
      SSHConnectionPool.getConnection cfg now hs st
      = (SSHConnectionPool.mkState (SSHConnectionPool.pool st) (SSHConnectionPool.ended st)
           (S (SSHConnectionPool.connects st)), fresh))
  /\ (POOL_ENABLED cfg = true ->
      (forall rest pooled, live = rest ++ [pooled] ->
         SSHConnectionPool.getConnection cfg now hs st
         = (SSHConnectionPool.mkState rest (SSHConnectionPool.ended st ++ map conn dead)
              (SSHConnectionPool.connects st), inl (conn pooled)))
      /\ (live = [] ->
          SSHConnectionPool.getConnection cfg now hs st
          = (SSHConnectionPool.mkState [] (SSHConnectionPool.ended st ++ map conn dead)
               (S (SSHConnectionPool.connects st)), fresh))
      /\ (forall t c,
            Z.of_nat (List.length (SSHConnectionPool.pool st)) < POOL_MAX_SIZE cfg ->
            now - t <= POOL_TTL cfg ->
            SSHConnectionPool.getConnection cfg now hs
              (SSHConnectionPool.returnConnection cfg t c st)
            = (SSHConnectionPool.mkState live (SSHConnectionPool.ended st ++ map conn dead)
                 (SSHConnectionPool.connects st), inl c))).
Proof.
  intros live dead fresh.
  split; [|split; [|split]].
  - intros p. unfold dead. rewrite filter_In, expired_spec. reflexivity.
  - intros p. unfold live. rewrite filter_In, negb_true_iff.
    rewrite <- not_true_iff_false, expired_spec. split; intros [H1 H2]; split; auto; lia.
  - intros Hd. rewrite getConnection_disabled by assumption. reflexivity.
  - intros He. split; [|split].
    + intros rest pooled Hlive. now apply getConnection_reuse.
    + intros Hlive. rewrite getConnection_fresh by assumption. reflexivity.
    + intros t c Hroom Hidle.
      rewrite returnConnection_room by assumption.
      assert (Hnot : SSHConnectionPool.expired cfg now (mkPooled c t) = false).
      { apply not_true_iff_false. rewrite expired_spec. cbn. lia. }
      rewrite (getConnection_reuse cfg now hs _ live (mkPooled c t)); try assumption.
      * cbn [SSHConnectionPool.pool SSHConnectionPool.ended SSHConnectionPool.connects conn].
        rewrite filter_app. cbn [filter]. rewrite Hnot. cbn [map]. now rewrite app_nil_r.
      * cbn [SSHConnectionPool.pool]. rewrite filter_app. cbn [filter].
        rewrite Hnot. reflexivity.
Qed.

Lemma getConnection_prune_then_reuse_witness :
  SSHConnectionPool.getConnection defaultConfig 400000 None
    (SSHConnectionPool.mkState [mkPooled 0%nat 50000; mkPooled 1%nat 200000; mkPooled 2%nat 300000]
       [] 3)
  = (SSHConnectionPool.mkState [mkPooled 1%nat 200000] [0%nat] 3, inl 2%nat).
Proof.
  destruct (getConnection_prune_then_reuse defaultConfig 400000 None
              (SSHConnectionPool.mkState
                 [mkPooled 0%nat 50000; mkPooled 1%nat 200000; mkPooled 2%nat 300000] [] 3))
    as [_ [_ [_ H]]].
  destruct (H eq_refl) as [Hreuse _].
  exact (Hreuse [mkPooled 1%nat 200000] (mkPooled 2%nat 300000) eq_refl).
Defined.

(** ** Facts about one command execution *)

Section Execution.
Import SSHConnectionPool Exec.
Variable cfg : Config.

Lemma run_app trace1 trace2 s :
  run cfg (trace1 ++ trace2) s = run cfg trace2 (run cfg trace1 s).
Proof.
  revert s. induction trace1 as [|[now ev] trace1 IH]; intros s; cbn [run app].
  - reflexivity.
  - apply IH.
Qed.

Lemma append_assoc (a b c : string) : ((a ++ b) ++ c = a ++ (b ++ c))%string.
Proof. induction a as [|ch a IH]; cbn; [reflexivity | now rewrite IH]. Qed.

Lemma append_empty_r (a : string) : (a ++ EmptyString)%string = a.
Proof. induction a as [|ch a IH]; cbn; [reflexivity | now rewrite IH]. Qed.

(** Output events on an open stream only extend the two buffers. *)
Lemma run_data datas : forall p x,
  forallb (fun e => isData (snd e)) datas = true ->
  streamOpen x = true ->
  run cfg datas (p, x)
  = (p, mkRequest (session x) (command x) (isResolved x) (timeoutPending x)
          (abortPending x) (execPending x) (streamOpen x) (abortExecPending x)
          (abortStreamOpen x) (stdout x ++ stdoutOf datas)%string
          (stderr x ++ stderrOf datas)%string (issued x) (settled x)).
Proof.
  induction datas as [|[now ev] datas IH]; intros p x Hd Ho; cbn [run stdoutOf stderrOf].
  - rewrite !append_empty_r. now destruct x.
  - cbn [forallb snd] in Hd. apply andb_true_iff in Hd. destruct Hd as [Hev Hd].
    destruct ev; try discriminate Hev; cbn [handle]; rewrite Ho;
      rewrite IH by (try assumption; reflexivity); cbn; now rewrite ?append_assoc.
Qed.

(** The guard: a settled request stays settled, with the same outcome. *)
Lemma handle_resolved now ev p x :
  isResolved x = true ->
  isResolved (snd (handle cfg now ev (p, x))) = true
  /\ settled (snd (handle cfg now ev (p, x))) = settled x.
Proof.
  intros Hr. destruct ev; cbn [handle].
  - destruct (timeoutPending x); cbn [snd]; [|auto].
    unfold onTimeout. rewrite Hr. cbn. auto.
  - destruct (timeoutPending x); cbn [snd]; [|auto].
    unfold onTimeoutThrows. rewrite Hr. cbn. auto.
  - destruct (execPending x); cbn [snd]; [|auto]. rewrite Hr. cbn. auto.
  - destruct (execPending x); cbn; auto.
  - destruct (streamOpen x); cbn; auto.
  - destruct (streamOpen x); cbn; auto.
  - destruct (streamOpen x); cbn [snd]; [|auto]. rewrite Hr. cbn. auto.
  - destruct (abortPending x); cbn; auto.
  - destruct (abortExecPending x); cbn; auto.
  - destruct (abortExecPending x); cbn; auto.
  - destruct (abortStreamOpen x); cbn; auto.
Qed.

Lemma run_resolved trace : forall p x,
  isResolved x = true ->
  isResolved (snd (run cfg trace (p, x))) = true
  /\ settled (snd (run cfg trace (p, x))) = settled x.
Proof.
  induction trace as [|[now ev] trace IH]; intros p x Hr; cbn [run].
  - auto.
  - destruct (handle_resolved now ev p x Hr) as [Hr1 Hs1].
    destruct (handle cfg now ev (p, x)) as [p1 x1]. cbn [snd] in *.
    destruct (IH p1 x1 Hr1) as [Hr2 Hs2]. split; congruence.
Qed.

(** One callback either keeps an unsettled request unsettled or settles
    it, with at most one report. *)
Lemma handle_unsettled now ev p x :
  unsettled x ->
  unsettled (snd (handle cfg now ev (p, x)))
  \/ (isResolved (snd (handle cfg now ev (p, x))) = true
      /\ (List.length (settled (snd (handle cfg now ev (p, x)))) <= 1)%nat).
Proof.
  intros [Hr [Hs Ht]]. unfold unsettled. destruct ev; cbn [handle].
  - rewrite Ht. right. unfold onTimeout. rewrite Hr, Hs. cbn. split; [reflexivity | lia].
  - rewrite Ht. right. unfold onTimeoutThrows. rewrite Hr, Hs. cbn. split; [reflexivity | lia].
  - destruct (execPending x); cbn [snd]; [|auto].
    rewrite Hr. right. cbn. rewrite Hs. cbn. split; [reflexivity | lia].
  - destruct (execPending x); cbn; auto.
  - destruct (streamOpen x); cbn; auto.
  - destruct (streamOpen x); cbn; auto.
  - destruct (streamOpen x); cbn [snd]; [|auto].
    rewrite Hr. right. cbn. rewrite Hs. cbn. split; [reflexivity | lia].
  - destruct (abortPending x); cbn; auto.
  - destruct (abortExecPending x); cbn; auto.
  - destruct (abortExecPending x); cbn; auto.
  - destruct (abortStreamOpen x); cbn; auto.
Qed.

Lemma run_unsettled trace : forall p x,
  unsettled x ->
  unsettled (snd (run cfg trace (p, x)))
  \/ (isResolved (snd (run cfg trace (p, x))) = true
      /\ (List.length (settled (snd (run cfg trace (p, x)))) <= 1)%nat).
Proof.
  induction trace as [|[now ev] trace IH]; intros p x Hu; cbn [run].
  - auto.
  - destruct (handle_unsettled now ev p x Hu) as [Hu1 | [Hr1 Hone]];
      destruct (handle cfg now ev (p, x)) as [p1 x1]; cbn [snd] in *.
    + now apply IH.
    + right. destruct (run_resolved trace p1 x1 Hr1) as [Hr2 Hs2].
      split; [exact Hr2|]. now rewrite Hs2.
Qed.

Lemma start_unsettled c cmd : unsettled (start c cmd).
Proof. repeat split. Qed.

Lemma startThrown_unsettled c cmd : unsettled (startThrown c cmd).
Proof. repeat split. Qed.

End Execution.

(** ** The claims on command execution *)

(** C7. When the stream of a running command closes while the request
    is not yet settled, the connection is released and the promise is
    settled by that close: exit code 0 resolves with the accumulated
    standard output, whatever was written to standard error; any other
    exit code rejects with a message that prints the exit code followed
    by standard error if it is not empty, else standard output if it is
    not empty, else the text "Command failed".  The same, end to end, for
    a command whose output events are followed by the close. *)
Theorem stream_close_maps_exit_status (cfg : Config) (p : SSHConnectionPool.State)
    (now : Z) (exitCode : Z) :
  let failure (m : string) : Outcome string :=
    Rejected (mkError InternalError
                ("Command failed (exit code " ++ string_of_Z exitCode ++ "):"
                   ++ Exec.newline ++ m)%string) in
  let mapped (x : Exec.Request) (out err : string) : Prop :=
    (exitCode = 0 -> Exec.promise x = Some (Resolved out))
    /\ (exitCode <> 0 -> err <> EmptyString -> Exec.promise x = Some (failure err))
    /\ (exitCode <> 0 -> err = EmptyString -> out <> EmptyString ->
        Exec.promise x = Some (failure out))
    /\ (exitCode <> 0 -> err = EmptyString -> out = EmptyString ->
        Exec.promise x = Some (failure "Command failed"))
    /\ List.length (Exec.settled x) = 1%nat in
  (forall x,
     Exec.streamOpen x = true -> Exec.unsettled x ->
     fst (Exec.handle cfg now (Exec.StreamClose exitCode) (p, x))
     = SSHConnectionPool.returnConnection cfg now (Exec.session x) p
     /\ mapped (snd (Exec.handle cfg now (Exec.StreamClose exitCode) (p, x)))
          (Exec.stdout x) (Exec.stderr x))
  /\
  (forall c cmd t0 datas,
     forallb (fun e => Exec.isData (snd e)) datas = true ->
     mapped (snd (Exec.run cfg ((t0, Exec.ExecStream) :: datas ++ [(now, Exec.StreamClose exitCode)])
                    (p, Exec.start c cmd)))
       (Exec.stdoutOf datas) (Exec.stderrOf datas)).
Proof.
  intros failure mapped.
  assert (Hstep : forall x,
     Exec.streamOpen x = true -> Exec.unsettled x ->
     fst (Exec.handle cfg now (Exec.StreamClose exitCode) (p, x))
     = SSHConnectionPool.returnConnection cfg now (Exec.session x) p
     /\ mapped (snd (Exec.handle cfg now (Exec.StreamClose exitCode) (p, x)))
          (Exec.stdout x) (Exec.stderr x)).
  { intros x Ho [Hr [Hs Ht]]. cbn [Exec.handle]. rewrite Ho, Hr. cbn [negb fst snd].
    split; [reflexivity|]. unfold mapped, Exec.promise, Exec.finish.
    cbn [Exec.settled]. rewrite Hs. cbn [app hd_error List.length].
    unfold Exec.closeOutcome, Exec.commandFailed, Exec.errorMsg, failure.
    repeat split.
    - intros ->. reflexivity.
    - intros Hne Herr. apply Z.eqb_neq in Hne. rewrite Hne. cbn [negb].
      destruct (Exec.stderr x); [congruence | reflexivity].
    - intros Hne Herr Hout. apply Z.eqb_neq in Hne. rewrite Hne, Herr. cbn [negb].
      destruct (Exec.stdout x); [congruence | reflexivity].
    - intros Hne Herr Hout. apply Z.eqb_neq in Hne. rewrite Hne, Herr, Hout. reflexivity. }
  split; [exact Hstep|].
  intros c cmd t0 datas Hd.
  cbn [Exec.run]. rewrite run_app.
  change (Exec.handle cfg t0 Exec.ExecStream (p, Exec.start c cmd))
    with (p, Exec.mkRequest c cmd false true false false true false false
               EmptyString EmptyString [cmd] []).
  rewrite run_data by (try assumption; reflexivity).
  cbn [Exec.run Exec.session Exec.command Exec.isResolved Exec.timeoutPending
         Exec.abortPending Exec.execPending Exec.streamOpen Exec.abortExecPending
         Exec.abortStreamOpen Exec.stdout Exec.stderr Exec.issued Exec.settled
         String.append].
  apply (Hstep (Exec.mkRequest c cmd false true false false true false false
                  (Exec.stdoutOf datas) (Exec.stderrOf datas) [cmd] [])).
  - reflexivity.
  - repeat split.
Qed.

Lemma stream_close_maps_exit_status_witness :
  Exec.promise
    (snd (Exec.run defaultConfig
            [(0, Exec.ExecStream); (5, Exec.StderrData "warning: x");
             (6, Exec.StdoutData "done"); (9, Exec.StreamClose 0)]
            (SSHConnectionPool.mkState [] [] 1, Exec.start 0%nat "make")))
  = Some (Resolved "done").
Proof.
  destruct (stream_close_maps_exit_status defaultConfig (SSHConnectionPool.mkState [] [] 1) 9 0)
    as [_ H].
  destruct (H 0%nat "make" 0 [(5, Exec.StderrData "warning: x"); (6, Exec.StdoutData "done")]
              eq_refl) as [Hzero _].
  exact (Hzero eq_refl).
Defined.

(** The two reports are different values. *)
Lemma close_is_not_timeout (cfg : Config) (exitCode : Z) (x : Exec.Request) :
  Exec.closeOutcome exitCode x <> Rejected (Exec.timeoutError cfg).
Proof.
  unfold Exec.closeOutcome, Exec.commandFailed, Exec.timeoutError.
  destruct (negb (exitCode =? 0)); [|discriminate].
  cbn. intros H. inversion H.
Qed.

(** C2. A pooled client whose connection is closed is handed to an
    "exec" request.  [conn.exec(command)] throws, outside the [try]:
    nothing is reported, and the promise is left unsettled.  When the
    deadline timer runs, the [conn.exec]
    of the abort command throws too, before [reject] is reached: whatever
    callbacks follow, [resolve] and [reject] are never called, and the
    promise of the request is never settled.  The secondary timer then
    puts the closed client back into the pool. *)
Theorem closed_client_request_never_settles :
  let r := mkRemote None None None sampleSftp (Some "Not connected") None in
  let w := mkWorld [] (SSHConnectionPool.mkState [mkPooled 0%nat 0] [] 1) in
  let p := SSHConnectionPool.mkState [] [] 1 in
  let x := Exec.startThrown 0%nat "uptime" in
  Tools.exec defaultConfig 1000 r "uptime" w = (mkWorld [1000] p, inr x)
  /\ Exec.promise x = None
  /\ (forall rest,
        Exec.promise
          (snd (Exec.run defaultConfig ((61000, Exec.TimeoutFiresThrows) :: rest) (p, x)))
        = None)
  /\ fst (Exec.run defaultConfig
            [(61000, Exec.TimeoutFiresThrows); (66000, Exec.AbortTimeoutFires)] (p, x))
     = SSHConnectionPool.mkState [mkPooled 0%nat 66000] [] 1.
Proof.
  intros r w p x. split; [reflexivity|]. split; [reflexivity|].
  split; [|reflexivity].
  intros rest. cbn [Exec.run]. unfold Exec.promise.
  assert (Hres : Exec.isResolved (Exec.onTimeoutThrows x) = true) by reflexivity.
  change (Exec.handle defaultConfig 61000 Exec.TimeoutFiresThrows (p, x))
    with (p, Exec.onTimeoutThrows x).
  destruct (run_resolved defaultConfig rest p _ Hres) as [_ Hs]. now rewrite Hs.
Qed.

(** X25. What holds of the reports of one request, whether or not its
    [conn.exec] threw: over any callbacks, [resolve] and [reject] are
    called at most once in all.  If the deadline timer runs, its
    [conn.exec] returning, while the request is not settled, the one
    report is the timeout failure and nothing that follows adds or
    changes a report.  If the stream closes while the request is not
    settled, the one report is that of the close, it is not the timeout
    failure, and nothing that follows adds or changes a report. *)
Theorem reports_are_final (cfg : Config) (p : SSHConnectionPool.State) (c : Conn)
    (cmd : string) (x0 : Exec.Request) (trace : list (Z * Exec.Event)) :
  x0 = Exec.start c cmd \/ x0 = Exec.startThrown c cmd ->
  let final := snd (Exec.run cfg trace (p, x0)) in
  (List.length (Exec.settled final) <= 1)%nat
  /\ (forall before t after,
        trace = before ++ (t, Exec.TimeoutFires) :: after ->
        Exec.isResolved (snd (Exec.run cfg before (p, x0))) = false ->
        Exec.settled final = [Rejected (Exec.timeoutError cfg)])
  /\ (forall before t exitCode after,
        trace = before ++ (t, Exec.StreamClose exitCode) :: after ->
        let x := snd (Exec.run cfg before (p, x0)) in
        Exec.isResolved x = false ->
        Exec.streamOpen x = true ->
        Exec.settled final
        = [if exitCode =? 0 then Resolved (Exec.stdout x)
           else Rejected (Exec.commandFailed exitCode (Exec.stdout x) (Exec.stderr x))]
        /\ Exec.settled final <> [Rejected (Exec.timeoutError cfg)]).
Proof.
  intros Hx0 final.
  assert (Hu0 : Exec.unsettled x0).
  { destruct Hx0 as [-> | ->]; [apply start_unsettled | apply startThrown_unsettled]. }
  assert (Hbefore : forall before,
            Exec.isResolved (snd (Exec.run cfg before (p, x0))) = false ->
            Exec.unsettled (snd (Exec.run cfg before (p, x0)))).
  { intros before Hr.
    destruct (run_unsettled cfg before p x0 Hu0) as [Hu | [Hr' _]]; [exact Hu | congruence]. }
  split; [|split].
  - unfold final.
    destruct (run_unsettled cfg trace p x0 Hu0) as [[_ [Hs _]] | [_ Hone]].
    + rewrite Hs. cbn. lia.
    + exact Hone.
  - intros before t after -> Hr. unfold final. rewrite run_app.
    specialize (Hbefore before Hr).
    destruct (Exec.run cfg before (p, x0)) as [p1 x1].
    cbn [snd] in Hbefore. destruct Hbefore as [Hr1 [Hs1 Ht1]].
    cbn [Exec.run Exec.handle]. rewrite Ht1.
    assert (Hres : Exec.isResolved (Exec.onTimeout cfg x1) = true).
    { unfold Exec.onTimeout. now rewrite Hr1. }
    destruct (run_resolved cfg after p1 _ Hres) as [_ Hs]. rewrite Hs.
    unfold Exec.onTimeout. rewrite Hr1. cbn. now rewrite Hs1.
  - intros before t exitCode after -> x Hr Ho. unfold final. rewrite run_app.
    specialize (Hbefore before Hr). subst x.
    destruct (Exec.run cfg before (p, x0)) as [p1 x1].
    cbn [snd] in *. destruct Hbefore as [Hr1 [Hs1 Ht1]].
    cbn [Exec.run Exec.handle]. rewrite Ho, Hr1. cbn [negb].
    assert (Hres : Exec.isResolved (Exec.finish x1 (Exec.closeOutcome exitCode x1)) = true)
      by reflexivity.
    destruct (run_resolved cfg after (SSHConnectionPool.returnConnection cfg t (Exec.session x1) p1)
                _ Hres) as [_ Hs].
    rewrite Hs. cbn [Exec.finish Exec.settled]. rewrite Hs1. cbn [app].
    split.
    + unfold Exec.closeOutcome. now destruct (exitCode =? 0).
    + intros Heq. injection Heq as Heq. now apply close_is_not_timeout in Heq.
Qed.

Lemma reports_are_final_witness :
  Exec.settled
    (snd (Exec.run scenarioConfig
            [(0, Exec.ExecStream); (100, Exec.TimeoutFires); (100, Exec.StreamClose 0)]
            (SSHConnectionPool.mkState [] [] 1, Exec.start 0%nat "sleep 10")))
  = [Rejected (Exec.timeoutError scenarioConfig)]
  /\ Exec.settled
       (snd (Exec.run scenarioConfig
               [(0, Exec.ExecStream); (100, Exec.StreamClose 0); (100, Exec.TimeoutFires)]
               (SSHConnectionPool.mkState [] [] 1, Exec.start 0%nat "true")))
     = [Resolved EmptyString].
Proof.
  split.
  - destruct (reports_are_final scenarioConfig (SSHConnectionPool.mkState [] [] 1) 0%nat
                "sleep 10" (Exec.start 0%nat "sleep 10")
                [(0, Exec.ExecStream); (100, Exec.TimeoutFires); (100, Exec.StreamClose 0)]
                (or_introl eq_refl))
      as [_ [H _]].
    exact (H [(0, Exec.ExecStream)] 100 [(100, Exec.StreamClose 0)] eq_refl eq_refl).
  - destruct (reports_are_final scenarioConfig (SSHConnectionPool.mkState [] [] 1) 0%nat
                "true" (Exec.start 0%nat "true")
                [(0, Exec.ExecStream); (100, Exec.StreamClose 0); (100, Exec.TimeoutFires)]
                (or_introl eq_refl))
      as [_ [_ H]].
    exact (proj1 (H [(0, Exec.ExecStream)] 100 0 [(100, Exec.TimeoutFires)]
                    eq_refl eq_refl eq_refl)).
Defined.

(** ** The claims on paths and on the tool handlers *)

Lemma eqb_tilde (remotePath : string) :
  (if String.eqb remotePath "~" then "~" else remotePath) = remotePath.
Proof.
  destruct (String.eqb remotePath "~") eqn:E; [|reflexivity].
  apply String.eqb_eq in E. now subst.
Qed.

(** C9. [expandRemotePath] always resolves and never rejects.  A path
    that does not start with [~] is returned unchanged, without asking
    the remote end.  For a path that starts with [~], the answer of the
    remote [realpath] is returned when there is one, and the path itself
    when [realpath] fails. *)
Theorem expandRemotePath_falls_back (sftp : Sftp) (remotePath : string) :
  (exists path, expandRemotePath sftp remotePath = Resolved path)
  /\ (startsWith remotePath "~" = false ->
      expandRemotePath sftp remotePath = Resolved remotePath)
  /\ (startsWith remotePath "~" = true ->
      forall msg, realpath sftp remotePath = inl msg ->
        expandRemotePath sftp remotePath = Resolved remotePath)
  /\ (startsWith remotePath "~" = true ->
      forall resolvedPath, realpath sftp remotePath = inr resolvedPath ->
        expandRemotePath sftp remotePath = Resolved resolvedPath).
Proof.
  unfold expandRemotePath. rewrite eqb_tilde.
  destruct (startsWith remotePath "~") eqn:Es; cbn [negb].
  - split; [|split; [|split]].
    + destruct (realpath sftp remotePath); eauto.
    + discriminate.
    + intros _ msg ->. reflexivity.
    + intros _ resolvedPath ->. reflexivity.
  - split; [|split; [|split]]; eauto; discriminate.
Qed.

Lemma expandRemotePath_falls_back_witness :
  expandRemotePath sampleSftp "~/Desktop/file.txt" = Resolved "~/Desktop/file.txt"
  /\ expandRemotePath sampleSftp "/var/log/syslog" = Resolved "/var/log/syslog".
Proof.
  split.
  - destruct (expandRemotePath_falls_back sampleSftp "~/Desktop/file.txt") as [_ [_ [H _]]].
    exact (H eq_refl "Permission denied" eq_refl).
  - destruct (expandRemotePath_falls_back sampleSftp "/var/log/syslog") as [_ [H _]].
    exact (H eq_refl).
Defined.

Section Sanitize.
Variable cfg : Config.

Lemma sanitize_empty command :
  trim command = EmptyString ->
  sanitizeCommand cfg command = Throw (mkError InvalidParams "Command cannot be empty").
Proof. intros H. unfold sanitizeCommand. now rewrite H. Qed.

Lemma sanitize_oversized command m :
  MAX_CHARS cfg = Some m ->
  (m < String.length (trim command))%nat ->
  exists e, sanitizeCommand cfg command = Throw e /\ code e = InvalidParams.
Proof.
  intros Hm Hlong. unfold sanitizeCommand.
  destruct (String.length (trim command) =? 0)%nat; [eauto|].
  rewrite Hm. apply Nat.ltb_lt in Hlong. rewrite Hlong. eauto.
Qed.

Lemma sanitize_forbidden command p :
  STRICT_MODE cfg = true ->
  In p DANGEROUS_PATTERNS ->
  test p (trim command) = true ->
  exists e, sanitizeCommand cfg command = Throw e /\ code e = InvalidParams.
Proof.
  intros Hs Hin Ht. unfold sanitizeCommand.
  destruct (String.length (trim command) =? 0)%nat; [eauto|].
  destruct (match MAX_CHARS cfg with
            | Some m => (m <? String.length (trim command))%nat
            | None => false
            end); [eauto|].
  rewrite Hs.
  destruct (find (fun q => test q (trim command)) DANGEROUS_PATTERNS) as [q|] eqn:Ef; [eauto|].
  exfalso. eapply find_none in Ef; [|exact Hin]. cbn beta in Ef. congruence.
Qed.

End Sanitize.

Lemma state_neq_of_touch (st st' : SSHConnectionPool.State) :
  (List.length (SSHConnectionPool.pool st') < List.length (SSHConnectionPool.pool st))%nat
  \/ SSHConnectionPool.connects st' = S (SSHConnectionPool.connects st) ->
  st' <> st.
Proof. intros [H | H] ->; lia. Qed.

(** C8. A request that the rate limiter denies fails with the rate-limit
    error and leaves the pool, the closed clients and the count of
    constructed clients exactly as they were; so does an "exec" request
    whose command the sanitizer refuses (and it refuses an empty, an
    oversized and, in strict mode, a forbidden-pattern command), and an
    "upload" or "download" request whose local path fails validation.
    An acquisition, on the contrary, always changes that state: these
    requests fail without one. *)
Theorem early_failures_acquire_nothing (cfg : Config) (fs : LocalFs) (now done : Z)
    (r : Remote) (w : World) :
  (forall e, snd (RateLimiter.checkLimit cfg now (limiter w)) = Throw e ->
     (forall command,
        snd (Tools.exec cfg now r command w) = inl e
        /\ sessions (fst (Tools.exec cfg now r command w)) = sessions w)
     /\ (forall localPath remotePath,
           snd (Tools.upload cfg fs now done r localPath remotePath w) = Some (Rejected e)
           /\ sessions (fst (Tools.upload cfg fs now done r localPath remotePath w)) = sessions w)
     /\ (forall remotePath localPath,
           snd (Tools.download cfg fs now done r remotePath localPath w) = Some (Rejected e)
           /\ sessions (fst (Tools.download cfg fs now done r remotePath localPath w)) = sessions w))
  /\ (forall command e,
        snd (RateLimiter.checkLimit cfg now (limiter w)) = Ok tt ->
        sanitizeCommand cfg command = Throw e ->
        snd (Tools.exec cfg now r command w) = inl e
        /\ sessions (fst (Tools.exec cfg now r command w)) = sessions w)
  /\ (forall command,
        (trim command = EmptyString
         \/ (exists m, MAX_CHARS cfg = Some m /\ (m < String.length (trim command))%nat)
         \/ (STRICT_MODE cfg = true
             /\ exists pat, In pat DANGEROUS_PATTERNS /\ test pat (trim command) = true)) ->
        exists e, sanitizeCommand cfg command = Throw e)
  /\ (forall localPath remotePath,
        valid (validateLocalUploadPath fs localPath) = false ->
        sessions (fst (Tools.upload cfg fs now done r localPath remotePath w)) = sessions w
        /\ (exists e, snd (Tools.upload cfg fs now done r localPath remotePath w)
                      = Some (Rejected e))
        /\ (snd (RateLimiter.checkLimit cfg now (limiter w)) = Ok tt ->
            configError r = None ->
            snd (Tools.upload cfg fs now done r localPath remotePath w)
            = Some (Rejected (mkError InvalidParams
                                (validationMessage (validateLocalUploadPath fs localPath))))))
  /\ (forall remotePath localPath,
        valid (validateLocalDownloadPath fs localPath) = false ->
        sessions (fst (Tools.download cfg fs now done r remotePath localPath w)) = sessions w
        /\ (exists e, snd (Tools.download cfg fs now done r remotePath localPath w)
                      = Some (Rejected e))
        /\ (snd (RateLimiter.checkLimit cfg now (limiter w)) = Ok tt ->
            configError r = None ->
            snd (Tools.download cfg fs now done r remotePath localPath w)
            = Some (Rejected (mkError InvalidParams
                                (validationMessage (validateLocalDownloadPath fs localPath))))))
  /\ (forall t hs st, fst (SSHConnectionPool.getConnection cfg t hs st) <> st).
Proof.
  split; [|split; [|split; [|split; [|split]]]].
  - intros e He. unfold Tools.exec, Tools.upload, Tools.download.
    destruct (RateLimiter.checkLimit cfg now (limiter w)) as [l1 res].
    cbn [snd] in He. subst res. repeat split.
  - intros command e Hok Hs. unfold Tools.exec.
    destruct (RateLimiter.checkLimit cfg now (limiter w)) as [l1 res].
    cbn [snd] in Hok. subst res. rewrite Hs. split; reflexivity.
  - intros command [Hempty | [[m [Hm Hlong]] | [Hstrict [pat [Hin Ht]]]]].
    + rewrite sanitize_empty by assumption. eauto.
    + destruct (sanitize_oversized cfg command m Hm Hlong) as [e [He _]]. eauto.
    + destruct (sanitize_forbidden cfg command pat Hstrict Hin Ht) as [e [He _]]. eauto.
  - intros localPath remotePath Hv. unfold Tools.upload, Transfer.uploadFile.
    destruct (RateLimiter.checkLimit cfg now (limiter w)) as [l1 [[]|e]]; cbn [snd fst sessions].
    + destruct (configError r) as [msg|]; rewrite ?Hv; cbn [negb fst snd sessions].
      * split; [reflexivity|]. split; [eauto|]. intros _ Hc. discriminate Hc.
      * split; [reflexivity|]. split; [eauto|]. reflexivity.
    + split; [reflexivity|]. split; [eauto|]. intros Hok. discriminate Hok.
  - intros remotePath localPath Hv. unfold Tools.download, Transfer.downloadFile.
    destruct (RateLimiter.checkLimit cfg now (limiter w)) as [l1 [[]|e]]; cbn [snd fst sessions].
    + destruct (configError r) as [msg|]; rewrite ?Hv; cbn [negb fst snd sessions].
      * split; [reflexivity|]. split; [eauto|]. intros _ Hc. discriminate Hc.
      * split; [reflexivity|]. split; [eauto|]. reflexivity.
    + split; [reflexivity|]. split; [eauto|]. intros Hok. discriminate Hok.
  - intros t hs st. apply state_neq_of_touch, getConnection_touches.
Qed.

Lemma early_failures_acquire_nothing_witness :
  (* the fourth request of a window *)
  (snd (Tools.exec scenarioConfig 3 sampleRemote "ls" (mkWorld [0; 1; 2] SSHConnectionPool.empty))
   = inl (RateLimiter.rateLimitExceeded 3 5000)
   /\ sessions (fst (Tools.exec scenarioConfig 3 sampleRemote "ls"
                       (mkWorld [0; 1; 2] SSHConnectionPool.empty)))
      = SSHConnectionPool.empty)
  (* a chained command in strict mode *)
  /\ sessions (fst (Tools.exec scenarioConfig 0 sampleRemote "ls; rm -rf /" freshWorld))
     = SSHConnectionPool.empty
  (* a local file that does not exist *)
  /\ sessions (fst (Tools.upload scenarioConfig sampleFs 0 9 sampleRemote
                      "/tmp/missing.txt" "~/missing.txt" freshWorld))
     = SSHConnectionPool.empty
  (* a local directory that does not exist *)
  /\ sessions (fst (Tools.download scenarioConfig sampleFs 0 9 sampleRemote
                      "/var/log/syslog" "/srv/out/syslog" freshWorld))
     = SSHConnectionPool.empty.
Proof.
  split; [|split; [|split]].
  - destruct (early_failures_acquire_nothing scenarioConfig sampleFs 3 9 sampleRemote
                (mkWorld [0; 1; 2] SSHConnectionPool.empty)) as [H _].
    destruct (H (RateLimiter.rateLimitExceeded 3 5000) eq_refl) as [Hexec _].
    exact (Hexec "ls").
  - destruct (early_failures_acquire_nothing scenarioConfig sampleFs 0 9 sampleRemote freshWorld)
      as [_ [H _]].
    refine (proj2 (H "ls; rm -rf /" _ eq_refl eq_refl)).
  - destruct (early_failures_acquire_nothing scenarioConfig sampleFs 0 9 sampleRemote freshWorld)
      as [_ [_ [_ [H _]]]].
    exact (proj1 (H "/tmp/missing.txt" "~/missing.txt" eq_refl)).
  - destruct (early_failures_acquire_nothing scenarioConfig sampleFs 0 9 sampleRemote freshWorld)
      as [_ [_ [_ [_ [H _]]]]].
    exact (proj1 (H "/var/log/syslog" "/srv/out/syslog" eq_refl)).
Defined.

(** ** The timeout path, run on the code *)

(** Whatever the configuration, the cleanup after a timeout is one call
    of [returnConnection], when the abort stream closes before the
    secondary deadline. *)
Lemma timeout_cleanup_is_returnConnection (cfg : Config) (p : SSHConnectionPool.State)
    (x : Exec.Request) (t1 t2 t3 : Z) :
  Exec.unsettled x ->
  fst (Exec.run cfg [(t1, Exec.TimeoutFires); (t2, Exec.AbortExecStream);
                     (t3, Exec.AbortStreamClose)] (p, x))
  = SSHConnectionPool.returnConnection cfg t3 (Exec.session x) p.
Proof.
  intros [Hr [_ Ht]]. cbn [Exec.run Exec.handle]. rewrite Ht.
  unfold Exec.onTimeout. rewrite Hr. reflexivity.
Qed.

(** C1. The scenario of the specification, with a timeout of 100 ms and
    pooling enabled: the command is still running when the deadline timer
    runs.  The caller gets the timeout failure.  But whether the abort
    stream closes or the secondary deadline runs first, the cleanup calls
    [returnConnection], which pushes the client on the pool: the client
    is not closed, and the next acquisition hands it out again. *)
Theorem timeout_session_is_pooled_again :
  let acquired := Tools.exec scenarioConfig 0 sampleRemote "sleep 10" freshWorld in
  let x := Exec.start 0%nat "sleep 10" in
  let p := SSHConnectionPool.mkState [] [] 1 in
  let closes := Exec.run scenarioConfig
                  [(0, Exec.ExecStream); (100, Exec.TimeoutFires);
                   (110, Exec.AbortExecStream); (150, Exec.AbortStreamClose)] (p, x) in
  let elapses := Exec.run scenarioConfig
                   [(0, Exec.ExecStream); (100, Exec.TimeoutFires);
                    (5100, Exec.AbortTimeoutFires)] (p, x) in
  acquired = (mkWorld [0] p, inr x)
  /\ Exec.promise (snd closes) = Some (Rejected (Exec.timeoutError scenarioConfig))
  /\ fst closes = SSHConnectionPool.mkState [mkPooled 0%nat 150] [] 1
  /\ Exec.promise (snd elapses) = Some (Rejected (Exec.timeoutError scenarioConfig))
  /\ fst elapses = SSHConnectionPool.mkState [mkPooled 0%nat 5100] [] 1
  /\ SSHConnectionPool.getConnection scenarioConfig 200 None (fst closes)
     = (SSHConnectionPool.mkState [] [] 1, inl 0%nat).
Proof. repeat split. Qed.

(** C3. With the default configuration (a pool of three): the deadline
    timer runs and issues the abort command; no answer to it comes within
    the five seconds of the secondary deadline, which runs and releases
    the client; then the callback of the abort command's [conn.exec] is
    called with an error and no stream, as it is when the connection is
    lost while the channel is still to be opened, and its [else] branch
    releases the same client again, its [clearTimeout] coming too late.
    The client now occupies two entries of the pool, and two acquisitions
    in a row, with no release in between, hand the same client to two
    operations. *)
Theorem abort_path_releases_twice :
  let p := SSHConnectionPool.mkState [] [] 1 in
  let after := Exec.run defaultConfig
                 [(0, Exec.ExecStream); (60000, Exec.TimeoutFires);
                  (65000, Exec.AbortTimeoutFires);
                  (66000, Exec.AbortExecNoStream)]
                 (p, Exec.start 0%nat "sleep 600") in
  let first := SSHConnectionPool.getConnection defaultConfig 66001 None (fst after) in
  let second := SSHConnectionPool.getConnection defaultConfig 66002 None (fst first) in
  fst after = SSHConnectionPool.mkState [mkPooled 0%nat 65000; mkPooled 0%nat 66000] [] 1
  /\ Exec.settled (snd after) = [Rejected (Exec.timeoutError defaultConfig)]
  /\ snd first = inl 0%nat
  /\ snd second = inl 0%nat
  /\ SSHConnectionPool.connects (fst second) = 1%nat.
Proof. repeat split. Qed.

(** * Further properties of the code *)

(** ** The rate limit over time *)

Section RateGuarantee.
Import RateLimiter.
Variable cfg : Config.
Local Abbreviation W := (RATE_LIMIT_WINDOW cfg).
Local Abbreviation MAX := (RATE_LIMIT_MAX cfg).

Lemma checkAll_length times : forall reqs,
  List.length (snd (checkAll cfg times reqs)) = List.length times.
Proof.
  induction times as [|t times IH]; intros reqs; cbn [checkAll]; [reflexivity|].
  destruct (checkLimit cfg t reqs) as [reqs1 r]. specialize (IH reqs1).
  destruct (checkAll cfg times reqs1) as [reqs2 rs]. cbn in *. now rewrite IH.
Qed.

Lemma admittedOf_app times1 : forall results1 times2 results2,
  List.length times1 = List.length results1 ->
  admittedOf (times1 ++ times2) (results1 ++ results2)
  = admittedOf times1 results1 ++ admittedOf times2 results2.
Proof.
  induction times1 as [|t times1 IH]; intros [|r results1] times2 results2 Hlen;
    try discriminate Hlen; cbn [app admittedOf].
  - reflexivity.
  - injection Hlen as Hlen. rewrite IH by assumption. now destruct (isOk r).
Qed.

Lemma nondecreasing_snoc times now :
  nondecreasing (times ++ [now]) -> nondecreasing times /\ Forall (fun t => t <= now) times.
Proof.
  induction times as [|t times IH]; cbn [app nondecreasing].
  - intros _. split; [exact I | constructor].
  - intros [Hall Hrest]. apply Forall_app in Hall. destruct Hall as [Hall Hnow].
    destruct (IH Hrest) as [Hnd Hle]. split; [split; assumption|].
    constructor; [now inversion Hnow | exact Hle].
Qed.

Lemma filter_length_mono {A} (f g : A -> bool) (l : list A) :
  (forall x, In x l -> f x = true -> g x = true) ->
  (List.length (filter f l) <= List.length (filter g l))%nat.
Proof.
  induction l as [|x l IH]; intros Himp; cbn [filter]; [lia|].
  assert (IH' : (List.length (filter f l) <= List.length (filter g l))%nat).
  { apply IH. intros y Hy. apply Himp. now right. }
  destruct (f x) eqn:Ef.
  - rewrite (Himp x (or_introl eq_refl) Ef). cbn [List.length]. lia.
  - destruct (g x); cbn [List.length]; lia.
Qed.

(** Under a clock that does not go back, the window the limiter holds is
    the admitted timestamps, pruned; and no interval of length [W] holds
    more than [MAX] of them. *)
Lemma window_tracks_admitted times :
  RATE_LIMIT_ENABLED cfg = true ->
  0 < W -> 0 <= MAX ->
  nondecreasing times ->
  (forall now, Forall (fun t => t <= now) times ->
     filter (inWindow (now - W)) (fst (checkAll cfg times []))
     = filter (inWindow (now - W)) (admittedOf times (snd (checkAll cfg times []))))
  /\ (forall t,
        Z.of_nat (List.length (filter (fun a => (t - W <? a) && (a <=? t))
                                 (admittedOf times (snd (checkAll cfg times [])))))
        <= MAX).
Proof.
  intros He HW HM. induction times as [|now times IH] using rev_ind; intros Hnd.
  - cbn. split; [reflexivity | intros _; exact HM].
  - apply nondecreasing_snoc in Hnd. destruct Hnd as [Hnd Hle].
    destruct (IH Hnd) as [Htrack Hcount]. clear IH.
    rewrite checkAll_app.
    pose proof (checkAll_length times []) as Hlen.
    destruct (checkAll cfg times []) as [state results]. cbn [fst snd] in *.
    cbn [checkAll].
    pose proof (Htrack now Hle) as Hkept.
    destruct (Z_lt_le_dec (Z.of_nat (List.length (filter (inWindow (now - W)) state))) MAX)
      as [Hlt | Hge].
    + rewrite checkLimit_admitted by assumption. cbn [fst snd].
      rewrite admittedOf_app by (symmetry; exact Hlen). cbn [admittedOf isOk].
      split.
      * intros now' Hall. apply Forall_app in Hall. destruct Hall as [_ Hnow].
        inversion Hnow as [|? ? Hn _]; subst.
        rewrite !filter_app, prune_then_prune by assumption.
        f_equal. apply Htrack. eapply Forall_impl; [|exact Hle]. cbn beta. intros; lia.
      * intros t. rewrite filter_app, length_app. cbn [filter].
        destruct ((t - W <? now) && (now <=? t)) eqn:Ein.
        -- apply andb_true_iff in Ein. destruct Ein as [E1 E2].
           apply Z.ltb_lt in E1. apply Z.leb_le in E2.
           assert (Hsub : (List.length (filter (fun a => ((t - W <? a) && (a <=? t))%Z)
                                           (admittedOf times results))
                           <= List.length (filter (inWindow (now - W))
                                             (admittedOf times results)))%nat).
           { apply filter_length_mono. intros a _ Ha.
             apply andb_true_iff in Ha. destruct Ha as [Ha _].
             apply Z.ltb_lt in Ha. apply inWindow_true. lia. }
           rewrite <- Hkept in Hsub. cbn [List.length]. lia.
        -- cbn [List.length]. specialize (Hcount t). lia.
    + rewrite checkLimit_denied by assumption. cbn [fst snd].
      rewrite admittedOf_app by (symmetry; exact Hlen). cbn [admittedOf isOk].
      rewrite app_nil_r. split; [|exact Hcount].
      intros now' Hall. apply Forall_app in Hall. destruct Hall as [Hall Hnow].
      inversion Hnow as [|? ? Hn _]; subst.
      rewrite prune_then_prune by assumption.
      apply Htrack. eapply Forall_impl; [|exact Hle]. cbn beta. intros; lia.
Qed.

End RateGuarantee.

(** X1. With rate limiting enabled, a positive window and a clock that
    does not go back, however many calls are made: among the calls that
    were admitted, no interval [(t - windowMs, t]] holds more than [max]
    of them. *)
Theorem admitted_calls_respect_the_rate (cfg : Config) (times : list Z) (t : Z) :
  RATE_LIMIT_ENABLED cfg = true ->
  0 < RATE_LIMIT_WINDOW cfg ->
  0 <= RATE_LIMIT_MAX cfg ->
  nondecreasing times ->
  Z.of_nat (List.length
              (filter (fun a => (t - RATE_LIMIT_WINDOW cfg <? a) && (a <=? t))
                 (admittedOf times (snd (RateLimiter.checkAll cfg times [])))))
  <= RATE_LIMIT_MAX cfg.
Proof.
  intros He HW HM Hnd.
  exact (proj2 (window_tracks_admitted cfg times He HW HM Hnd) t).
Qed.

Lemma admitted_calls_respect_the_rate_witness :
  admittedOf [0; 10; 20; 30; 4000; 5005; 5015]
    (snd (RateLimiter.checkAll scenarioConfig [0; 10; 20; 30; 4000; 5005; 5015] []))
  = [0; 10; 20; 5005; 5015]
  /\ Z.of_nat (List.length
                 (filter (fun a => (5015 - 5000 <? a) && (a <=? 5015))
                    (admittedOf [0; 10; 20; 30; 4000; 5005; 5015]
                       (snd (RateLimiter.checkAll scenarioConfig
                               [0; 10; 20; 30; 4000; 5005; 5015] [])))))
     <= 3.
Proof.
  split; [reflexivity|].
  apply (admitted_calls_respect_the_rate scenarioConfig [0; 10; 20; 30; 4000; 5005; 5015] 5015).
  - reflexivity.
  - cbn; lia.
  - cbn; lia.
  - cbn. repeat split; repeat constructor; lia.
Defined.

(** ** The pool: eviction, shutdown, exclusive borrowing *)

Lemma filter_split_permutation {A} (f : A -> bool) (l : list A) :
  Permutation l (filter (fun x => negb (f x)) l ++ filter f l).
Proof.
  induction l as [|x l IH]; cbn [filter]; [constructor|].
  destruct (f x); cbn [negb app].
  - apply Permutation_cons_app. exact IH.
  - constructor. exact IH.
Qed.

Lemma filter_idempotent {A} (f : A -> bool) (l : list A) :
  filter f (filter f l) = filter f l.
Proof.
  induction l as [|x l IH]; cbn [filter]; [reflexivity|].
  destruct (f x) eqn:E; cbn [filter]; [rewrite E|]; now rewrite ?IH.
Qed.

Lemma filter_then_complement {A} (f : A -> bool) (l : list A) :
  filter f (filter (fun x => negb (f x)) l) = [].
Proof.
  induction l as [|x l IH]; cbn [filter]; [reflexivity|].
  destruct (f x) eqn:E; cbn [negb filter]; [|rewrite E]; exact IH.
Qed.

(** X2. [cleanupExpired] loses no client: the clients of the pool before
    are, up to order, the clients it keeps and the clients it closes.
    Every entry it keeps has been idle for at most [POOL_TTL]; it
    constructs nothing; and running it again at the same time changes
    nothing more. *)
Theorem cleanupExpired_keeps_or_closes (cfg : Config) (now : Z)
    (st : SSHConnectionPool.State) :
  let st' := SSHConnectionPool.cleanupExpired cfg now st in
  (exists closed,
      SSHConnectionPool.ended st' = SSHConnectionPool.ended st ++ closed
      /\ Permutation (map conn (SSHConnectionPool.pool st))
           (map conn (SSHConnectionPool.pool st') ++ closed))
  /\ Forall (fun pooled => now - lastUsed pooled <= POOL_TTL cfg) (SSHConnectionPool.pool st')
  /\ SSHConnectionPool.connects st' = SSHConnectionPool.connects st
  /\ SSHConnectionPool.cleanupExpired cfg now st' = st'.
Proof.
  intros st'. subst st'. unfold SSHConnectionPool.cleanupExpired.
  cbn [SSHConnectionPool.pool SSHConnectionPool.ended SSHConnectionPool.connects].
  split; [|split; [|split]].
  - exists (map conn (filter (SSHConnectionPool.expired cfg now) (SSHConnectionPool.pool st))).
    split; [reflexivity|]. rewrite <- map_app. apply Permutation_map.
    apply filter_split_permutation.
  - apply Forall_forall. intros pooled Hin. apply filter_In in Hin. destruct Hin as [_ Hlive].
    apply negb_true_iff, not_true_iff_false in Hlive. rewrite expired_spec in Hlive. lia.
  - reflexivity.
  - rewrite filter_idempotent, filter_then_complement. cbn [map]. now rewrite app_nil_r.
Qed.

(** X3. [shutdown] closes every pooled client, in pool order, and leaves
    the pool empty; a second [shutdown] does nothing; and the pool still
    serves afterwards: the next [getConnection] constructs a client. *)
Theorem shutdown_closes_all (cfg : Config) (st : SSHConnectionPool.State) :
  SSHConnectionPool.pool (SSHConnectionPool.shutdown st) = []
  /\ SSHConnectionPool.ended (SSHConnectionPool.shutdown st)
     = SSHConnectionPool.ended st ++ map conn (SSHConnectionPool.pool st)
  /\ SSHConnectionPool.shutdown (SSHConnectionPool.shutdown st) = SSHConnectionPool.shutdown st
  /\ (forall now hs,
        SSHConnectionPool.getConnection cfg now hs (SSHConnectionPool.shutdown st)
        = SSHConnectionPool.createNewConnection hs (SSHConnectionPool.shutdown st)).
Proof.
  split; [reflexivity|]. split; [reflexivity|]. split.
  - unfold SSHConnectionPool.shutdown. cbn. now rewrite app_nil_r.
  - intros now hs. unfold SSHConnectionPool.getConnection.
    destruct (POOL_ENABLED cfg); cbn [negb]; [|reflexivity].
    unfold SSHConnectionPool.cleanupExpired, SSHConnectionPool.shutdown. cbn.
    now rewrite app_nil_r.
Qed.

(** X4. Borrowing is exclusive as long as no client is pooled twice: a
    client that [getConnection] takes from the pool (no client being
    constructed) is no longer in the pool afterwards, acquiring never
    creates a duplicate, and releasing a client that is not already
    pooled creates none either. *)
Theorem borrowed_client_leaves_the_pool (cfg : Config) (st : SSHConnectionPool.State) :
  NoDup (map conn (SSHConnectionPool.pool st)) ->
  (forall now hs,
     NoDup (map conn (SSHConnectionPool.pool (fst (SSHConnectionPool.getConnection cfg now hs st)))))
  /\ (forall now hs c,
        snd (SSHConnectionPool.getConnection cfg now hs st) = inl c ->
        SSHConnectionPool.connects (fst (SSHConnectionPool.getConnection cfg now hs st))
        = SSHConnectionPool.connects st ->
        In c (map conn (SSHConnectionPool.pool st))
        /\ ~ In c (map conn (SSHConnectionPool.pool
                               (fst (SSHConnectionPool.getConnection cfg now hs st)))))
  /\ (forall now c,
        ~ In c (map conn (SSHConnectionPool.pool st)) ->
        NoDup (map conn (SSHConnectionPool.pool (SSHConnectionPool.returnConnection cfg now c st)))).
Proof.
  intros Hnd.
  assert (Hlive : forall now,
            NoDup (map conn (filter (fun p => negb (SSHConnectionPool.expired cfg now p))
                               (SSHConnectionPool.pool st)))).
  { intros now. revert Hnd. generalize (SSHConnectionPool.pool st).
    induction l as [|x l IH]; cbn [map filter]; intros Hl; [constructor|].
    inversion Hl as [|? ? Hx Hrest]; subst.
    destruct (negb (SSHConnectionPool.expired cfg now x)); cbn [map]; [|auto].
    constructor; [|auto]. intros Hin. apply Hx.
    apply in_map_iff in Hin. destruct Hin as [y [Hy Hin]].
    apply filter_In in Hin. apply in_map_iff. exists y. tauto. }
  split; [|split].
  - intros now hs. destruct (POOL_ENABLED cfg) eqn:He.
    + destruct (rev (filter (fun p => negb (SSHConnectionPool.expired cfg now p))
                       (SSHConnectionPool.pool st))) as [|x r] eqn:Er;
        apply (f_equal (@rev _)) in Er; rewrite rev_involutive in Er; cbn [rev] in Er.
      * rewrite getConnection_fresh by assumption. constructor.
      * rewrite (getConnection_reuse cfg now hs st (rev r) x) by assumption.
        cbn [fst SSHConnectionPool.pool]. specialize (Hlive now).
        rewrite Er, map_app in Hlive. now apply NoDup_app_remove_r in Hlive.
    + rewrite getConnection_disabled by assumption. exact Hnd.
  - intros now hs c Hc Hsame. destruct (POOL_ENABLED cfg) eqn:He.
    + destruct (rev (filter (fun p => negb (SSHConnectionPool.expired cfg now p))
                       (SSHConnectionPool.pool st))) as [|x r] eqn:Er;
        apply (f_equal (@rev _)) in Er; rewrite rev_involutive in Er; cbn [rev] in Er.
      * rewrite getConnection_fresh in Hsame by assumption. cbn in Hsame. lia.
      * rewrite (getConnection_reuse cfg now hs st (rev r) x) in * by assumption.
        cbn [fst snd SSHConnectionPool.pool] in *. injection Hc as Hc. subst c.
        split.
        -- apply in_map.
           assert (Hx : In x (filter (fun p => negb (SSHConnectionPool.expired cfg now p))
                                (SSHConnectionPool.pool st))).
           { rewrite Er. apply in_or_app. right. now left. }
           now apply filter_In in Hx.
        -- specialize (Hlive now). rewrite Er, map_app in Hlive. cbn [map] in Hlive.
           intros Hin. apply NoDup_remove_2 in Hlive. apply Hlive.
           rewrite app_nil_r. exact Hin.
    + rewrite getConnection_disabled in Hsame by assumption. cbn in Hsame. lia.
  - intros now c Hnot.
    destruct (returnConnection_cases cfg now c st) as [E | [_ [_ E]]]; rewrite E;
      cbn [SSHConnectionPool.endConnection SSHConnectionPool.pool]; [exact Hnd|].
    rewrite map_app. cbn [map conn].
    eapply Permutation_NoDup; [apply Permutation_cons_append | constructor; assumption].
Qed.

(** ** One command execution, phase by phase *)

Section ExecPhases.
Import SSHConnectionPool Exec.
Variable cfg : Config.
Variable c : Conn.
Variable cmd : string.
Variable p0 : State.

Lemma released_returnConnection now c' st :
  released (returnConnection cfg now c' st) = S (released st).
Proof.
  unfold released.
  destruct (returnConnection_cases cfg now c' st) as [E | [_ [_ E]]]; rewrite E;
    cbn [endConnection pool ended]; rewrite length_app; cbn [List.length]; lia.
Qed.

Lemma execError_is_not_timeout msg :
  @Rejected string (execError msg) <> Rejected (timeoutError cfg).
Proof. unfold execError, timeoutError. cbn. intros H. inversion H. Qed.

Lemma start_running : running c cmd p0 (p0, start c cmd).
Proof. repeat split. Qed.

(** A running command either keeps running, or completes with one
    release, or times out with none. *)
Lemma handle_running now ev s :
  running c cmd p0 s ->
  running c cmd p0 (handle cfg now ev s)
  \/ (exists o, completed cfg c cmd p0 o now (handle cfg now ev s))
  \/ (timedOut cfg c cmd (handle cfg now ev s)
      /\ fst (handle cfg now ev s) = p0
      /\ abortPending (snd (handle cfg now ev s)) = true
      /\ abortStreamOpen (snd (handle cfg now ev s)) = false).
Proof.
  destruct s as [p x]. destruct x as [sess cm res tp ap ep so aep aso out err iss set].
  unfold running, unsettled, quiet. cbn [fst snd session command isResolved timeoutPending
    abortPending execPending streamOpen abortExecPending abortStreamOpen issued settled].
  intros [-> [[-> [-> ->]] [[-> [-> ->]] [-> [-> ->]]]]].
  destruct ev; cbn [handle isResolved timeoutPending abortPending execPending streamOpen
    abortExecPending abortStreamOpen session negb].
  - right. right. unfold timedOut, onTimeout. cbn. repeat split. now left.
  - right. right. unfold timedOut, onTimeoutThrows. cbn. repeat split. right. repeat split.
  - destruct ep.
    + right. left. exists (Rejected (execError msg)). unfold completed, finish, quiet. cbn.
      repeat split. apply execError_is_not_timeout.
    + left. unfold running, unsettled, quiet. cbn. repeat split.
  - destruct ep; left; unfold running, unsettled, quiet; cbn; repeat split.
  - destruct so; left; unfold running, unsettled, quiet; cbn; repeat split.
  - destruct so; left; unfold running, unsettled, quiet; cbn; repeat split.
  - destruct so.
    + right. left.
      exists (closeOutcome exitCode
                (mkRequest c cmd false true false ep true false false out err [cmd] [])).
      unfold completed, finish, quiet. cbn [fst snd isResolved settled timeoutPending
        abortPending abortExecPending abortStreamOpen issued app].
      repeat split. apply close_is_not_timeout.
    + left. unfold running, unsettled, quiet. cbn. repeat split.
  - left. unfold running, unsettled, quiet. cbn. repeat split.
  - left. unfold running, unsettled, quiet. cbn. repeat split.
  - left. unfold running, unsettled, quiet. cbn. repeat split.
  - left. unfold running, unsettled, quiet. cbn. repeat split.
Qed.

(** After completion nothing more is reported or released. *)
Lemma handle_completed o t now ev s :
  completed cfg c cmd p0 o t s -> completed cfg c cmd p0 o t (handle cfg now ev s).
Proof.
  destruct s as [p x]. destruct x as [sess cm res tp ap ep so aep aso out err iss set].
  unfold completed, quiet. cbn [fst snd session command isResolved timeoutPending
    abortPending execPending streamOpen abortExecPending abortStreamOpen issued settled].
  intros [-> [-> [Hne [[-> [-> ->]] [-> [-> ->]]]]]].
  destruct ev; cbn [handle isResolved timeoutPending abortPending execPending streamOpen
    abortExecPending abortStreamOpen session negb];
    try destruct ep; try destruct so; cbn; repeat split; assumption.
Qed.

(** After a timeout: each callback releases at most what is owed. *)
Lemma handle_timedOut now ev s :
  timedOut cfg c cmd s ->
  timedOut cfg c cmd (handle cfg now ev s)
  /\ (released (fst (handle cfg now ev s)) + owed (snd (handle cfg now ev s))
      <= released (fst s) + owed (snd s))%nat.
Proof.
  destruct s as [p x]. destruct x as [sess cm res tp ap ep so aep aso out err iss set].
  unfold timedOut, owed. cbn [fst snd session command isResolved timeoutPending
    abortPending execPending streamOpen abortExecPending abortStreamOpen issued settled].
  intros [-> [Hset [-> [-> [-> Hex]]]]].
  destruct Hset as [-> | [-> [-> ->]]];
    destruct ev; cbn [handle isResolved timeoutPending abortPending execPending streamOpen
      abortExecPending abortStreamOpen session negb];
    try destruct ep; try destruct so; try destruct ap; try destruct aep; try destruct aso;
    try discriminate Hex;
    cbn [fst snd session command isResolved timeoutPending abortPending execPending
         streamOpen abortExecPending abortStreamOpen issued settled andb orb Nat.b2n];
    rewrite ?released_returnConnection;
    (split; [repeat split; try (left; reflexivity); try (right; repeat split) | lia]).
Qed.

(** The same when the secondary timer does not run: the abort callback
    makes the only release. *)
Lemma handle_timedOut_no_timer now ev s :
  ev <> AbortTimeoutFires ->
  timedOut cfg c cmd s ->
  (abortPending (snd s) = false ->
   abortExecPending (snd s) = false /\ abortStreamOpen (snd s) = false) ->
  (abortPending (snd (handle cfg now ev s)) = false ->
   abortExecPending (snd (handle cfg now ev s)) = false
   /\ abortStreamOpen (snd (handle cfg now ev s)) = false)
  /\ (released (fst (handle cfg now ev s))
      + Nat.b2n (abortExecPending (snd (handle cfg now ev s))
                 || abortStreamOpen (snd (handle cfg now ev s)))
      <= released (fst s) + Nat.b2n (abortExecPending (snd s) || abortStreamOpen (snd s)))%nat.
Proof.
  destruct s as [p x]. destruct x as [sess cm res tp ap ep so aep aso out err iss set].
  unfold timedOut. cbn [fst snd session command isResolved timeoutPending
    abortPending execPending streamOpen abortExecPending abortStreamOpen issued settled].
  intros Hev [-> [_ [-> [-> [-> Hex]]]]] Hoff.
  destruct ev; try congruence;
    cbn [handle isResolved timeoutPending abortPending execPending streamOpen
         abortExecPending abortStreamOpen session negb];
    try destruct ep; try destruct so; destruct ap; destruct aep; destruct aso;
    try discriminate Hex;
    try (destruct (Hoff eq_refl); discriminate);
    cbn [fst snd session command isResolved timeoutPending abortPending execPending
         streamOpen abortExecPending abortStreamOpen issued settled andb orb Nat.b2n];
    rewrite ?released_returnConnection; (split; [auto; intros; discriminate | lia]).
Qed.

End ExecPhases.

Section ExecRuns.
Import SSHConnectionPool Exec.
Variable cfg : Config.
Variable c : Conn.
Variable cmd : string.
Variable p0 : State.

Lemma run_completed o t trace : forall s,
  completed cfg c cmd p0 o t s -> completed cfg c cmd p0 o t (run cfg trace s).
Proof.
  induction trace as [|[now ev] trace IH]; intros s Hs; cbn [run]; [exact Hs|].
  apply IH. now apply handle_completed.
Qed.

Lemma run_timedOut trace : forall s,
  timedOut cfg c cmd s ->
  timedOut cfg c cmd (run cfg trace s)
  /\ (released (fst (run cfg trace s)) + owed (snd (run cfg trace s))
      <= released (fst s) + owed (snd s))%nat.
Proof.
  induction trace as [|[now ev] trace IH]; intros s Hs; cbn [run]; [split; [exact Hs | lia]|].
  destruct (handle_timedOut cfg c cmd now ev s Hs) as [Hs1 Hb1].
  destruct (IH _ Hs1) as [Hs2 Hb2]. split; [exact Hs2 | lia].
Qed.

Lemma run_timedOut_no_timer trace : forall s,
  ~ In AbortTimeoutFires (map snd trace) ->
  timedOut cfg c cmd s ->
  (abortPending (snd s) = false ->
   abortExecPending (snd s) = false /\ abortStreamOpen (snd s) = false) ->
  (released (fst (run cfg trace s)) <=
   released (fst s) + Nat.b2n (abortExecPending (snd s) || abortStreamOpen (snd s)))%nat.
Proof.
  induction trace as [|[now ev] trace IH]; intros s Hno Hs Hoff; cbn [run]; [lia|].
  cbn [map snd] in Hno.
  assert (Hev : ev <> AbortTimeoutFires) by (intros ->; apply Hno; now left).
  destruct (handle_timedOut cfg c cmd now ev s Hs) as [Hs1 _].
  destruct (handle_timedOut_no_timer cfg c cmd now ev s Hev Hs Hoff) as [Hoff1 Hb1].
  assert (Hno1 : ~ In AbortTimeoutFires (map snd trace)) by (intros H; apply Hno; now right).
  specialize (IH _ Hno1 Hs1 Hoff1). lia.
Qed.

(** Every run from the start is in one of the three phases. *)
Lemma run_phases trace : forall s,
  running c cmd p0 s ->
  running c cmd p0 (run cfg trace s)
  \/ (exists o t, In t (map fst trace) /\ completed cfg c cmd p0 o t (run cfg trace s))
  \/ (timedOut cfg c cmd (run cfg trace s)
      /\ (released (fst (run cfg trace s)) + owed (snd (run cfg trace s))
          <= released p0 + 2)%nat
      /\ (~ In AbortTimeoutFires (map snd trace) ->
          (released (fst (run cfg trace s)) <= released p0 + 1)%nat)).
Proof.
  induction trace as [|[now ev] trace IH]; intros s Hs; cbn [run]; [now left|].
  destruct (handle_running cfg c cmd p0 now ev s Hs)
    as [Hrun | [[o Hdone] | [Hto [Hp [Hap Haso]]]]].
  - destruct (IH _ Hrun) as [H | [[o [t [Hin H]]] | [H1 [H2 H3]]]].
    + now left.
    + right. left. exists o, t. split; [now right | exact H].
    + right. right. split; [exact H1|]. split; [exact H2|].
      intros Hno. apply H3. intros Hin. apply Hno. now right.
  - right. left. exists o, now. split; [now left|]. now apply run_completed.
  - right. right.
    destruct (run_timedOut trace _ Hto) as [H1 H2]. split; [exact H1|].
    unfold owed in H2 at 2. rewrite Hp, Hap, Haso, orb_false_r in H2.
    assert (Hone : (Nat.b2n (abortExecPending (snd (handle cfg now ev s))) <= 1)%nat)
      by (destruct (abortExecPending (snd (handle cfg now ev s))); cbn; lia).
    cbn [Nat.b2n] in H2.
    split; [lia|]. intros Hno.
    assert (Hno1 : ~ In AbortTimeoutFires (map snd trace)) by (intros H; apply Hno; now right).
    pose proof (run_timedOut_no_timer trace _ Hno1 Hto) as H3.
    rewrite Hp, Haso, orb_false_r in H3.
    assert (H4 : (released (fst (run cfg trace (handle cfg now ev s)))
                  <= released p0 + Nat.b2n (abortExecPending (snd (handle cfg now ev s))))%nat).
    { apply H3. rewrite Hap. discriminate. }
    lia.
Qed.

End ExecRuns.

(** X5. As long as a command has not been reported on, its request has
    not touched the pool: whatever callbacks have run, the pool state is
    the one left by the acquisition, and the only command issued on the
    client is the caller's. *)
Theorem unsettled_request_keeps_its_client (cfg : Config) (p0 : SSHConnectionPool.State)
    (c : Conn) (cmd : string) (trace : list (Z * Exec.Event)) :
  Exec.isResolved (snd (Exec.run cfg trace (p0, Exec.start c cmd))) = false ->
  fst (Exec.run cfg trace (p0, Exec.start c cmd)) = p0
  /\ Exec.issued (snd (Exec.run cfg trace (p0, Exec.start c cmd))) = [cmd]
  /\ Exec.settled (snd (Exec.run cfg trace (p0, Exec.start c cmd))) = [].
Proof.
  intros Hr.
  destruct (run_phases cfg c cmd p0 trace _ (start_running c cmd p0))
    as [[Hp [[_ [Hs _]] [_ [Hi _]]]] | [[o [t [_ [Hres _]]]] | [[Hres _] _]]].
  - auto.
  - congruence.
  - congruence.
Qed.

Lemma unsettled_request_keeps_its_client_witness :
  fst (Exec.run defaultConfig
         [(0, Exec.ExecStream); (5, Exec.StdoutData "partial"); (7, Exec.AbortStreamClose)]
         (SSHConnectionPool.mkState [mkPooled 7%nat 0] [] 8, Exec.start 3%nat "tail -f log"))
  = SSHConnectionPool.mkState [mkPooled 7%nat 0] [] 8.
Proof.
  apply (unsettled_request_keeps_its_client defaultConfig
           (SSHConnectionPool.mkState [mkPooled 7%nat 0] [] 8) 3%nat "tail -f log"
           [(0, Exec.ExecStream); (5, Exec.StdoutData "partial"); (7, Exec.AbortStreamClose)]).
  reflexivity.
Defined.

(** X6. A request that is reported as anything but the timeout (success,
    command failure, or failure to start the command) has released its
    client exactly once, through [returnConnection], at the time of one
    of the callbacks; and no abort command was ever issued. *)
Theorem completion_releases_once (cfg : Config) (p0 : SSHConnectionPool.State)
    (c : Conn) (cmd : string) (trace : list (Z * Exec.Event)) (o : Outcome string) :
  Exec.promise (snd (Exec.run cfg trace (p0, Exec.start c cmd))) = Some o ->
  o <> Rejected (Exec.timeoutError cfg) ->
  (exists t, In t (map fst trace)
             /\ fst (Exec.run cfg trace (p0, Exec.start c cmd))
                = SSHConnectionPool.returnConnection cfg t c p0)
  /\ released (fst (Exec.run cfg trace (p0, Exec.start c cmd))) = S (released p0)
  /\ Exec.issued (snd (Exec.run cfg trace (p0, Exec.start c cmd))) = [cmd].
Proof.
  intros Hp Hne. unfold Exec.promise in Hp.
  destruct (run_phases cfg c cmd p0 trace _ (start_running c cmd p0))
    as [[_ [[_ [Hs _]] _]] | [[o' [t [Hin [_ [Hs [_ [_ [_ [Hi Hf]]]]]]]]] | [[_ [Hs _]] _]]].
  - rewrite Hs in Hp. discriminate.
  - split; [exists t; auto|]. split; [|exact Hi].
    rewrite Hf. apply released_returnConnection.
  - destruct Hs as [Hs | [Hs _]]; rewrite Hs in Hp; cbn in Hp; congruence.
Qed.

Lemma completion_releases_once_witness :
  released (fst (Exec.run defaultConfig
                   [(0, Exec.ExecStream); (5, Exec.StderrData "no such file");
                    (9, Exec.StreamClose 2)]
                   (SSHConnectionPool.mkState [] [] 1, Exec.start 0%nat "cat x")))
  = S (released (SSHConnectionPool.mkState [] [] 1))
  /\ Exec.issued (snd (Exec.run defaultConfig
                         [(0, Exec.ExecStream); (5, Exec.StderrData "no such file");
                          (9, Exec.StreamClose 2)]
                         (SSHConnectionPool.mkState [] [] 1, Exec.start 0%nat "cat x")))
     = ["cat x"].
Proof.
  refine (proj2 (completion_releases_once defaultConfig (SSHConnectionPool.mkState [] [] 1)
                   0%nat "cat x"
                   [(0, Exec.ExecStream); (5, Exec.StderrData "no such file");
                    (9, Exec.StreamClose 2)]
                   (Rejected (Exec.commandFailed 2 EmptyString "no such file")) eq_refl _)).
  cbn. discriminate.
Defined.

(** X7. The abort command is given to [conn.exec] at most once, and
    only by the deadline timer: after any run, the commands given to
    [conn.exec] are the caller's command alone, or the caller's command
    followed by the [pkill] built from it.  Whenever the timeout is what
    the caller is told, the [pkill] was issued.  The [pkill] was issued
    exactly when the request is closed with no other report than the
    timeout: the caller was told of the timeout, or, the [conn.exec] of
    the [pkill] having thrown, was told nothing. *)
Theorem abort_command_issued_by_timer_only (cfg : Config) (p0 : SSHConnectionPool.State)
    (c : Conn) (cmd : string) (x0 : Exec.Request) (trace : list (Z * Exec.Event)) :
  x0 = Exec.start c cmd \/ x0 = Exec.startThrown c cmd ->
  let final := snd (Exec.run cfg trace (p0, x0)) in
  (Exec.issued final = [cmd] \/ Exec.issued final = [cmd; Exec.abortCommand cmd])
  /\ (Exec.settled final = [Rejected (Exec.timeoutError cfg)] ->
      Exec.issued final = [cmd; Exec.abortCommand cmd])
  /\ (Exec.issued final = [cmd; Exec.abortCommand cmd]
      <-> Exec.isResolved final = true
          /\ (Exec.settled final = [Rejected (Exec.timeoutError cfg)]
              \/ Exec.settled final = [])).
Proof.
  intros Hx0 final. subst final.
  assert (Hrun0 : running c cmd p0 (p0, x0)).
  { destruct Hx0 as [-> | ->]; repeat split. }
  destruct (run_phases cfg c cmd p0 trace _ Hrun0)
    as [[_ [[Hres [Hs _]] [_ [Hi _]]]]
       | [[o [t [_ [Hres [Hs [Hne [_ [_ [Hi _]]]]]]]]]
       | [[Hres [Hs [Hi _]]] _]]].
  - rewrite Hi, Hs, Hres. split; [auto|]. split; [discriminate|].
    split; [discriminate | intros [Hbad _]; discriminate].
  - rewrite Hi, Hs, Hres. split; [auto|]. split.
    { intros H. injection H as H. congruence. }
    split; [discriminate|]. intros [_ [H | H]]; [injection H as H; congruence | discriminate].
  - rewrite Hi, Hres. split; [auto|]. split; [reflexivity|].
    split; [|reflexivity]. intros _. split; [reflexivity|].
    destruct Hs as [Hs | [Hs _]]; auto.
Qed.

Lemma abort_command_issued_by_timer_only_witness :
  Exec.issued
    (snd (Exec.run scenarioConfig [(100, Exec.TimeoutFiresThrows)]
            (SSHConnectionPool.mkState [] [] 1, Exec.startThrown 0%nat "uptime")))
  = ["uptime"; Exec.abortCommand "uptime"].
Proof.
  apply (proj2 (proj2 (abort_command_issued_by_timer_only scenarioConfig
                         (SSHConnectionPool.mkState [] [] 1) 0%nat "uptime"
                         (Exec.startThrown 0%nat "uptime")
                         [(100, Exec.TimeoutFiresThrows)] (or_intror eq_refl)))).
  split; [reflexivity | right; reflexivity].
Defined.

(** X8. A request releases its client at most twice, and at most once
    when the secondary deadline of the abort does not run. *)
Theorem releases_are_bounded (cfg : Config) (p0 : SSHConnectionPool.State)
    (c : Conn) (cmd : string) (trace : list (Z * Exec.Event)) :
  (released (fst (Exec.run cfg trace (p0, Exec.start c cmd))) <= released p0 + 2)%nat
  /\ (~ In Exec.AbortTimeoutFires (map snd trace) ->
      (released (fst (Exec.run cfg trace (p0, Exec.start c cmd))) <= released p0 + 1)%nat).
Proof.
  destruct (run_phases cfg c cmd p0 trace _ (start_running c cmd p0))
    as [[Hp _] | [[o [t [_ [_ [_ [_ [_ [_ [_ Hf]]]]]]]]] | [_ [H2 H1]]]].
  - rewrite Hp. split; [lia | intros _; lia].
  - rewrite Hf, released_returnConnection. split; [lia | intros _; lia].
  - split; [lia | exact H1].
Qed.

Lemma releases_are_bounded_witness :
  le (released (fst (Exec.run scenarioConfig
                       [(0, Exec.ExecStream); (100, Exec.TimeoutFires);
                        (110, Exec.AbortExecStream); (150, Exec.AbortStreamClose);
                        (160, Exec.StreamClose 0)]
                       (SSHConnectionPool.mkState [] [] 1, Exec.start 0%nat "sleep 10"))))
     (Nat.add (released (SSHConnectionPool.mkState [] [] 1)) 1%nat).
Proof.
  apply (releases_are_bounded scenarioConfig (SSHConnectionPool.mkState [] [] 1) 0%nat "sleep 10").
  cbn. intros H. repeat (destruct H as [H | H]; [discriminate H|]). exact H.
Defined.

Lemma borrowed_client_leaves_the_pool_witness :
  In 1%nat (map conn [mkPooled 0%nat 10; mkPooled 1%nat 20])
  /\ ~ In 1%nat
       (map conn (SSHConnectionPool.pool
                    (fst (SSHConnectionPool.getConnection defaultConfig 30 None
                            (SSHConnectionPool.mkState [mkPooled 0%nat 10; mkPooled 1%nat 20] [] 2))))).
Proof.
  assert (Hnd : NoDup (map conn [mkPooled 0%nat 10; mkPooled 1%nat 20])).
  { cbn. repeat constructor; cbn; intuition discriminate. }
  exact (proj1 (proj2 (borrowed_client_leaves_the_pool defaultConfig
                         (SSHConnectionPool.mkState [mkPooled 0%nat 10; mkPooled 1%nat 20] [] 2)
                         Hnd))
           30 None 1%nat eq_refl eq_refl).
Defined.

(** X9. With pooling enabled and room in the pool, a request that is
    settled, by the callback that runs at time [t], with anything but the
    timeout, whether it succeeded or failed, leaves its client to the
    next caller: an acquisition made at a time [later] with
    [later - t <= POOL_TTL], whatever callbacks have run in between,
    returns that very client and constructs none. *)
Theorem completed_request_client_is_reused (cfg : Config) (p0 : SSHConnectionPool.State)
    (c : Conn) (cmd : string) (before after : list (Z * Exec.Event)) (t : Z)
    (ev : Exec.Event) (o : Outcome string) (later : Z) (hs : option string) :
  POOL_ENABLED cfg = true ->
  Z.of_nat (List.length (SSHConnectionPool.pool p0)) < POOL_MAX_SIZE cfg ->
  Exec.isResolved (snd (Exec.run cfg before (p0, Exec.start c cmd))) = false ->
  Exec.isResolved (snd (Exec.run cfg (before ++ [(t, ev)]) (p0, Exec.start c cmd))) = true ->
  Exec.promise (snd (Exec.run cfg (before ++ (t, ev) :: after) (p0, Exec.start c cmd)))
  = Some o ->
  o <> Rejected (Exec.timeoutError cfg) ->
  later - t <= POOL_TTL cfg ->
  let next := SSHConnectionPool.getConnection cfg later hs
                (fst (Exec.run cfg (before ++ (t, ev) :: after) (p0, Exec.start c cmd))) in
  snd next = inl c
  /\ SSHConnectionPool.connects (fst next) = SSHConnectionPool.connects p0.
Proof.
  intros He Hroom Hopen Hclosed Hp Hne Hfresh next. subst next.
  unfold Exec.promise in Hp. rewrite run_app in Hp, Hclosed. rewrite run_app.
  cbn [Exec.run] in Hp, Hclosed |- *.
  assert (Hrun : running c cmd p0 (Exec.run cfg before (p0, Exec.start c cmd))).
  { destruct (run_phases cfg c cmd p0 before _ (start_running c cmd p0))
      as [H | [[o' [t' [_ [Hres _]]]] | [[Hres _] _]]]; [exact H | congruence | congruence]. }
  destruct (handle_running cfg c cmd p0 t ev _ Hrun) as [Hr | [[o' Hdone] | [Hto _]]].
  - destruct Hr as [_ [[Hres _] _]]. congruence.
  - apply (run_completed cfg c cmd p0 o' t after) in Hdone.
    destruct Hdone as [_ [_ [_ [_ [_ [_ Hf]]]]]].
    rewrite Hf, returnConnection_room by assumption.
    assert (Hnot : SSHConnectionPool.expired cfg later (mkPooled c t) = false).
    { apply not_true_iff_false. rewrite expired_spec. cbn. lia. }
    rewrite (getConnection_reuse cfg later hs _
               (filter (fun p => negb (SSHConnectionPool.expired cfg later p))
                  (SSHConnectionPool.pool p0)) (mkPooled c t)); try assumption.
    + split; reflexivity.
    + cbn [SSHConnectionPool.pool]. rewrite filter_app. cbn [filter]. now rewrite Hnot.
  - apply (run_timedOut cfg c cmd after) in Hto. destruct Hto as [[_ [Hs _]] _].
    destruct Hs as [Hs | [Hs _]]; rewrite Hs in Hp; cbn in Hp; congruence.
Qed.

Lemma completed_request_client_is_reused_witness :
  snd (SSHConnectionPool.getConnection
         (mkConfig 60000 true 10 60000 true 3 1000 (Some 1000%nat) false) 5001 None
         (fst (Exec.run (mkConfig 60000 true 10 60000 true 3 1000 (Some 1000%nat) false)
                 ([(0, Exec.ExecStream)] ++ (5000, Exec.StreamClose 1) :: [])
                 (SSHConnectionPool.mkState [] [] 1, Exec.start 0%nat "false"))))
  = inl 0%nat.
Proof.
  refine (proj1 (completed_request_client_is_reused
                   (mkConfig 60000 true 10 60000 true 3 1000 (Some 1000%nat) false)
                   (SSHConnectionPool.mkState [] [] 1) 0%nat "false"
                   [(0, Exec.ExecStream)] [] 5000 (Exec.StreamClose 1)
                   (Rejected (Exec.commandFailed 1 EmptyString EmptyString))
                   5001 None eq_refl _ eq_refl eq_refl eq_refl _ _)).
  - cbn. lia.
  - cbn. discriminate.
  - cbn. lia.
Defined.

(** ** Strings: trimming, searching, quoting *)

Section Strings.

Lemma append_nil_r (s : string) : (s ++ EmptyString)%string = s.
Proof. induction s as [|ch s IH]; cbn; [reflexivity | now rewrite IH]. Qed.

Lemma append_assoc' (a b c : string) : ((a ++ b) ++ c = a ++ (b ++ c))%string.
Proof. induction a as [|ch a IH]; cbn; [reflexivity | now rewrite IH]. Qed.

Lemma list_of_append (a b : string) :
  list_ascii_of_string (a ++ b) = list_ascii_of_string a ++ list_ascii_of_string b.
Proof. induction a as [|ch a IH]; cbn; [reflexivity | now rewrite IH]. Qed.

Lemma string_of_app (l1 l2 : list ascii) :
  string_of_list_ascii (l1 ++ l2)
  = (string_of_list_ascii l1 ++ string_of_list_ascii l2)%string.
Proof. induction l1 as [|ch l1 IH]; cbn; [reflexivity | now rewrite IH]. Qed.

Lemma revString_involutive (s : string) : revString (revString s) = s.
Proof.
  unfold revString. rewrite list_ascii_of_string_of_list_ascii, rev_involutive.
  apply string_of_list_ascii_of_string.
Qed.

Lemma revString_app (a b : string) :
  revString (a ++ b) = (revString b ++ revString a)%string.
Proof. unfold revString. now rewrite list_of_append, rev_app_distr, string_of_app. Qed.

Lemma revString_empty (s : string) : revString s = EmptyString -> s = EmptyString.
Proof.
  intros H. apply (f_equal revString) in H. now rewrite revString_involutive in H.
Qed.

Lemma trimStart_decompose (s : string) :
  exists ws, s = (ws ++ trimStart s)%string /\ allSpace ws = true.
Proof.
  induction s as [|ch s [ws [Hs Hws]]]; cbn [trimStart].
  - exists EmptyString. split; reflexivity.
  - destruct (isSpace ch) eqn:E.
    + exists (String ch ws). cbn. rewrite E, Hws. split; [now rewrite <- Hs | reflexivity].
    + exists EmptyString. split; reflexivity.
Qed.

Lemma trimStart_head (s : string) ch r : trimStart s = String ch r -> isSpace ch = false.
Proof.
  induction s as [|ch' s IH]; cbn [trimStart]; [discriminate|].
  destruct (isSpace ch') eqn:E; [exact IH|]. intros H. injection H as -> _. exact E.
Qed.

Lemma trimStart_fixed ch r : isSpace ch = false -> trimStart (String ch r) = String ch r.
Proof. intros H. cbn. now rewrite H. Qed.

Lemma trimStart_idempotent (s : string) : trimStart (trimStart s) = trimStart s.
Proof.
  destruct (trimStart s) as [|ch r] eqn:E; [reflexivity|].
  apply trimStart_fixed. exact (trimStart_head s ch r E).
Qed.

Lemma trimStart_spaces ws ch r :
  allSpace ws = true -> isSpace ch = false ->
  trimStart (ws ++ String ch r) = String ch r.
Proof.
  intros Hws Hch. induction ws as [|w ws IH]; cbn [String.append trimStart].
  - now rewrite Hch.
  - cbn in Hws. apply andb_true_iff in Hws. destruct Hws as [Hw Hws]. rewrite Hw. auto.
Qed.

(** What [trim] returns has white space at neither end: trimming it again
    changes nothing. *)
Lemma trim_idempotent (s : string) : trim (trim s) = trim s.
Proof.
  unfold trim.
  set (a := trimStart s).
  destruct (trimStart_decompose (revString a)) as [ws [Hrev Hws]].
  set (b := trimStart (revString a)) in *.
  assert (Hb : trimStart b = b) by apply trimStart_idempotent.
  assert (Hrb : trimStart (revString b) = revString b).
  { destruct (revString b) as [|ch' r'] eqn:Erb; [reflexivity|].
    apply trimStart_fixed.
    assert (Ha : a = (revString b ++ revString ws)%string).
    { rewrite <- revString_app, <- Hrev. symmetry. apply revString_involutive. }
    rewrite Erb in Ha. cbn in Ha.
    apply (trimStart_head s ch' (r' ++ revString ws)%string). exact Ha. }
  rewrite Hrb, revString_involutive, Hb. reflexivity.
Qed.

Lemma prefix_app (sub post : string) : String.prefix sub (sub ++ post) = true.
Proof.
  induction sub as [|ch sub IH]; cbn.
  - now destruct post.
  - destruct (ascii_dec ch ch); [exact IH | congruence].
Qed.

Lemma includes_unfold (s sub : string) :
  includes s sub
  = if String.prefix sub s then true
    else match s with
         | EmptyString => false
         | String _ r => includes r sub
         end.
Proof. destruct s; reflexivity. Qed.

Lemma includes_intro (pre sub post : string) :
  includes (pre ++ sub ++ post) sub = true.
Proof.
  induction pre as [|ch pre IH]; cbn [String.append].
  - now rewrite includes_unfold, prefix_app.
  - rewrite includes_unfold.
    destruct (String.prefix sub (String ch (pre ++ sub ++ post))); auto.
Qed.

Lemma gapTest_intro (a b : ascii) (pre ws post : string) :
  allSpace ws = true -> isSpace b = false ->
  gapTest a b (pre ++ String a (ws ++ String b post)) = true.
Proof.
  intros Hws Hb. induction pre as [|ch pre IH]; cbn [String.append gapTest].
  - rewrite Ascii.eqb_refl, trimStart_spaces by assumption. now rewrite Ascii.eqb_refl.
  - rewrite IH. apply orb_true_r.
Qed.

End Strings.

(** ** The sanitizer and the shell escape *)

Section SanitizeMore.
Variable cfg : Config.

Lemma sanitize_ok_trim command r :
  sanitizeCommand cfg command = Ok r -> r = trim command.
Proof.
  unfold sanitizeCommand.
  destruct (String.length (trim command) =? 0)%nat; [discriminate|].
  destruct (match MAX_CHARS cfg with
            | Some m => (m <? String.length (trim command))%nat
            | None => false
            end); [discriminate|].
  destruct (if STRICT_MODE cfg
            then find (fun p => test p (trim command)) DANGEROUS_PATTERNS
            else None); [discriminate|].
  intros H. injection H as H. now symmetry.
Qed.

Lemma sanitize_ok_strict command r :
  STRICT_MODE cfg = true ->
  sanitizeCommand cfg command = Ok r ->
  forall p, In p DANGEROUS_PATTERNS -> test p r = false.
Proof.
  intros Hs Hok. pose proof (sanitize_ok_trim command r Hok) as ->.
  unfold sanitizeCommand in Hok.
  destruct (String.length (trim command) =? 0)%nat; [discriminate|].
  destruct (match MAX_CHARS cfg with
            | Some m => (m <? String.length (trim command))%nat
            | None => false
            end); [discriminate|].
  rewrite Hs in Hok.
  destruct (find (fun p => test p (trim command)) DANGEROUS_PATTERNS) eqn:Ef; [discriminate|].
  intros p Hin. exact (find_none _ _ Ef p Hin).
Qed.

Lemma sanitize_of_trim command :
  sanitizeCommand cfg (trim command) = sanitizeCommand cfg command.
Proof. unfold sanitizeCommand. now rewrite trim_idempotent. Qed.

End SanitizeMore.

(** X10. [sanitizeCommand] accepts a command if and only if, once
    trimmed, it is not empty, is no longer than [MAX_CHARS] when that is
    finite, and, in strict mode, matches none of the dangerous patterns;
    what it returns is then the trimmed command. *)
Theorem sanitizeCommand_accepts_iff (cfg : Config) (command r : string) :
  sanitizeCommand cfg command = Ok r
  <-> (r = trim command
       /\ r <> EmptyString
       /\ (forall m, MAX_CHARS cfg = Some m -> (String.length r <= m)%nat)
       /\ (STRICT_MODE cfg = true ->
           forall p, In p DANGEROUS_PATTERNS -> test p r = false)).
Proof.
  split.
  - intros Hok. pose proof (sanitize_ok_trim cfg command r Hok) as Hr.
    split; [exact Hr|]. split; [|split].
    + subst r. unfold sanitizeCommand in Hok. intros He. rewrite He in Hok. discriminate.
    + intros m Hm. subst r. unfold sanitizeCommand in Hok.
      destruct (String.length (trim command) =? 0)%nat; [discriminate|].
      rewrite Hm in Hok.
      destruct (m <? String.length (trim command))%nat eqn:E; [discriminate|].
      apply Nat.ltb_ge in E. exact E.
    + intros Hs. now apply (sanitize_ok_strict cfg command).
  - intros [-> [Hne [Hlen Hpat]]]. unfold sanitizeCommand.
    destruct (trim command) as [|ch t] eqn:Et; [congruence|]. cbn [String.length Nat.eqb].
    assert (Hshort : match MAX_CHARS cfg with
                     | Some m => (m <? S (String.length t))%nat
                     | None => false
                     end = false).
    { destruct (MAX_CHARS cfg) as [m|]; [|reflexivity].
      apply Nat.ltb_ge. exact (Hlen m eq_refl). }
    rewrite Hshort.
    destruct (STRICT_MODE cfg); [|reflexivity].
    destruct (find (fun p => test p (String ch t)) DANGEROUS_PATTERNS) as [p|] eqn:Ef;
      [|reflexivity].
    apply find_some in Ef. destruct Ef as [Hin Ht]. cbn beta in Ht.
    rewrite (Hpat eq_refl p Hin) in Ht. discriminate.
Qed.

(** X11. Sanitizing is idempotent: white space around a command does not
    change the verdict, and an accepted command, sanitized again, is
    accepted unchanged. *)
Theorem sanitizeCommand_idempotent (cfg : Config) (command r : string) :
  sanitizeCommand cfg command = Ok r ->
  sanitizeCommand cfg r = Ok r /\ trim r = r.
Proof.
  intros Hok. pose proof (sanitize_ok_trim cfg command r Hok) as ->.
  split; [|apply trim_idempotent].
  now rewrite sanitize_of_trim.
Qed.

Lemma sanitizeCommand_idempotent_witness :
  sanitizeCommand scenarioConfig "ls -la" = Ok "ls -la" /\ trim "ls -la" = "ls -la".
Proof.
  apply (sanitizeCommand_idempotent scenarioConfig "  ls -la  " "ls -la"). reflexivity.
Defined.

(** X12. In strict mode an accepted command contains no [;], no [&&], no
    [|] (hence no [||]), no backquote, no [$(], and no [>] or [&]
    followed, after any white space, by the other of the two. *)
Theorem strict_mode_rejects_chaining (cfg : Config) (command r : string) :
  STRICT_MODE cfg = true ->
  sanitizeCommand cfg command = Ok r ->
  (forall sub pre post,
     In sub [";"; "&&"; "||"; "|"; "`"; "$("] -> r <> (pre ++ sub ++ post)%string)
  /\ (forall pre ws post,
        allSpace ws = true ->
        r <> (pre ++ ">" ++ ws ++ "&" ++ post)%string
        /\ r <> (pre ++ "&" ++ ws ++ ">" ++ post)%string).
Proof.
  intros Hs Hok. pose proof (sanitize_ok_strict cfg command r Hs Hok) as Hpat.
  assert (Hinc : forall src sub pre post,
            In (mkPattern src (fun s => includes s sub)) DANGEROUS_PATTERNS ->
            r <> (pre ++ sub ++ post)%string).
  { intros src sub pre post Hin ->. specialize (Hpat _ Hin). cbn [test] in Hpat.
    rewrite includes_intro in Hpat. discriminate Hpat. }
  assert (Hgap : forall src a b pre ws post,
            In (mkPattern src (gapTest a b)) DANGEROUS_PATTERNS ->
            allSpace ws = true -> isSpace b = false ->
            r <> (pre ++ String a (ws ++ String b post))%string).
  { intros src a b pre ws post Hin Hws Hb ->. specialize (Hpat _ Hin). cbn [test] in Hpat.
    rewrite gapTest_intro in Hpat by assumption. discriminate Hpat. }
  split.
  - intros sub pre post Hin. cbn [In] in Hin.
    destruct Hin as [<- | [<- | [<- | [<- | [<- | [<- | []]]]]]].
    + apply (Hinc ";"). cbn. auto 10.
    + apply (Hinc "&&"). cbn. auto 10.
    + apply (Hinc "\|\|"). cbn. auto 10.
    + apply (Hinc "\|"). cbn. auto 10.
    + apply (Hinc "`"). cbn. auto 10.
    + apply (Hinc "\$\("). cbn. auto 10.
  - intros pre ws post Hws. split.
    + apply (Hgap ">\s*&" ">"%char "&"%char); [cbn; auto 10 | assumption | reflexivity].
    + apply (Hgap "&\s*>" "&"%char ">"%char); [cbn; auto 10 | assumption | reflexivity].
Qed.

Lemma strict_mode_rejects_chaining_witness :
  "ls -la /var/log" <> ("ls -la" ++ ";" ++ " /var/log")%string.
Proof.
  apply (proj1 (strict_mode_rejects_chaining scenarioConfig "  ls -la /var/log" "ls -la /var/log"
                  eq_refl eq_refl)).
  cbn. auto.
Defined.

Lemma shellUnquote_escaped (command : string) :
  shellUnquote InSingle (escapeCommandForShell command ++ "'") = Some command.
Proof.
  induction command as [|ch command IH]; [reflexivity|].
  cbn [escapeCommandForShell]. destruct (Ascii.eqb ch "'") eqn:E.
  - apply Ascii.eqb_eq in E. subst ch.
    unfold dq. cbn [String.append shellUnquote Ascii.eqb Bool.eqb orb].
    cbn. cbn in IH. now rewrite IH.
  - cbn [String.append shellUnquote]. rewrite E, IH. reflexivity.
Qed.

(** X13. The escape does what it is for: the command, escaped and put
    between single quotes as in the abort command, is read back by the
    shell as one word that is exactly the command. *)
Theorem escaped_command_reads_back (command : string) :
  shellUnquote Unquoted ("'" ++ escapeCommandForShell command ++ "'") = Some command
  /\ exists tail,
       Exec.abortCommand command
       = ("timeout 3s pkill -f " ++ ("'" ++ escapeCommandForShell command ++ "'") ++ tail)%string.
Proof.
  split.
  - cbn [String.append shellUnquote]. rewrite Ascii.eqb_refl. apply shellUnquote_escaped.
  - exists " 2>/dev/null || true". unfold Exec.abortCommand.
    rewrite !append_assoc'. reflexivity.
Qed.

(** X14. [escapeCommandForShell] leaves a command without single quotes
    as it is, distributes over concatenation, and lengthens a command by
    four characters per single quote. *)
Theorem escapeCommandForShell_shape (a b : string) :
  (countQuotes a = 0%nat -> escapeCommandForShell a = a)
  /\ escapeCommandForShell (a ++ b)
     = (escapeCommandForShell a ++ escapeCommandForShell b)%string
  /\ String.length (escapeCommandForShell a) = (String.length a + 4 * countQuotes a)%nat.
Proof.
  split; [|split].
  - induction a as [|ch a IH]; cbn [countQuotes escapeCommandForShell]; [reflexivity|].
    destruct (Ascii.eqb ch "'"); [discriminate|]. cbn. intros H. now rewrite IH.
  - induction a as [|ch a IH]; cbn [String.append escapeCommandForShell]; [reflexivity|].
    destruct (Ascii.eqb ch "'"); rewrite IH; [|reflexivity].
    unfold dq. cbn. reflexivity.
  - induction a as [|ch a IH]; cbn [countQuotes escapeCommandForShell String.length];
      [reflexivity|].
    destruct (Ascii.eqb ch "'").
    + unfold dq. cbn [String.append String.length]. rewrite IH. lia.
    + cbn [String.length]. rewrite IH. lia.
Qed.

Lemma escapeCommandForShell_shape_witness :
  escapeCommandForShell "sleep 600" = "sleep 600".
Proof.
  apply (proj1 (escapeCommandForShell_shape "sleep 600" EmptyString)). reflexivity.
Defined.

(** ** Transfers and listing: the client is always given back *)

Lemma expandRemotePath_resolves (sftp : Sftp) (remotePath : string) :
  exists path, expandRemotePath sftp remotePath = Resolved path.
Proof.
  unfold expandRemotePath. destruct (negb (startsWith remotePath "~")); [eauto|].
  destruct (realpath sftp _); eauto.
Qed.

Lemma fileLines_total (toISOString : Z -> option string) (files : list FileEntry) :
  (forall ms, toISOString ms <> None) ->
  exists lines, Listing.fileLines toISOString files = Some lines.
Proof.
  intros Htotal. induction files as [|file files [lines IH]]; cbn [Listing.fileLines].
  - eauto.
  - unfold Listing.fileLine.
    destruct (toISOString (mtime file * 1000)) as [m|] eqn:E; [|now apply Htotal in E].
    rewrite IH. eauto.
Qed.

(** X15. An upload, a download or a listing that obtained a client and
    whose [conn.sftp] call does not throw gives the client back exactly
    once, through [returnConnection] at the time its last callback runs,
    whether the operation succeeded or failed.  Upload and download then
    always settle; a listing settles unless a modification time cannot be
    printed, in which case the client is released and the promise left
    pending.  When [conn.sftp] throws, the operation rejects with its
    connection error and the client is not given back; when no client
    could be obtained, it rejects with the connection error and releases
    nothing. *)
Theorem transfers_release_their_client (cfg : Config) (fs : LocalFs) (now done : Z)
    (r : Remote) (p : SSHConnectionPool.State) :
  let acquired := SSHConnectionPool.getConnection cfg now (handshake r) p in
  let givenBack (res : SSHConnectionPool.State * option (Outcome string)) : Prop :=
    forall c, snd acquired = inl c -> sftpThrows r = None ->
      fst res = SSHConnectionPool.returnConnection cfg done c (fst acquired) in
  let settles (res : SSHConnectionPool.State * option (Outcome string)) : Prop :=
    forall c, snd acquired = inl c -> sftpThrows r = None -> exists o, snd res = Some o in
  let failsWith (prefix : string) (res : SSHConnectionPool.State * option (Outcome string)) : Prop :=
    (forall msg, snd acquired = inr msg ->
       res = (fst acquired, Some (Rejected (mkError InternalError (prefix ++ msg)%string))))
    /\ (forall c thrown, snd acquired = inl c -> sftpThrows r = Some thrown ->
          res = (fst acquired, Some (Rejected (mkError InternalError (prefix ++ thrown)%string)))) in
  (forall localPath remotePath,
     valid (validateLocalUploadPath fs localPath) = true ->
     givenBack (Transfer.uploadFile cfg fs now done r localPath remotePath p)
     /\ settles (Transfer.uploadFile cfg fs now done r localPath remotePath p)
     /\ failsWith "Upload connection error: "
          (Transfer.uploadFile cfg fs now done r localPath remotePath p))
  /\ (forall remotePath localPath,
        valid (validateLocalDownloadPath fs localPath) = true ->
        givenBack (Transfer.downloadFile cfg fs now done r remotePath localPath p)
        /\ settles (Transfer.downloadFile cfg fs now done r remotePath localPath p)
        /\ failsWith "Download connection error: "
             (Transfer.downloadFile cfg fs now done r remotePath localPath p))
  /\ (forall readdir toISOString remotePath,
        givenBack (Listing.listRemoteFiles cfg now done r readdir toISOString remotePath p)
        /\ ((forall ms, toISOString ms <> None) ->
            settles (Listing.listRemoteFiles cfg now done r readdir toISOString remotePath p))
        /\ (snd (Listing.listRemoteFiles cfg now done r readdir toISOString remotePath p) = None ->
            exists path files,
              readdir path = inr files /\ Listing.fileLines toISOString files = None)
        /\ failsWith "List files connection error: "
             (Listing.listRemoteFiles cfg now done r readdir toISOString remotePath p)).
Proof.
  intros acquired givenBack settles failsWith.
  subst givenBack settles failsWith acquired. cbn beta.
  split; [|split].
  - intros localPath remotePath Hv. unfold Transfer.uploadFile. rewrite Hv. cbn [negb].
    destruct (SSHConnectionPool.getConnection cfg now (handshake r) p) as [p1 [c|msg]];
      cbn [fst snd].
    + destruct (sftpThrows r) as [thrown|].
      * repeat split; intros; try discriminate.
        match goal with H : Some _ = Some _ |- _ => injection H as <- end. reflexivity.
      * destruct (expandRemotePath_resolves (channel r) remotePath) as [path Hpath].
        rewrite Hpath.
        destruct (sftpError r);
          [|destruct (fastPut (channel r)
                        (normalizedPath (validateLocalUploadPath fs localPath)) path)];
          cbn [fst snd]; repeat split; intros; try discriminate;
          try match goal with H : inl _ = inl _ |- _ => injection H as <- end;
          try reflexivity; eauto.
    + repeat split; intros; try discriminate.
      match goal with H : inr _ = inr _ |- _ => injection H as <- end. reflexivity.
  - intros remotePath localPath Hv. unfold Transfer.downloadFile. rewrite Hv. cbn [negb].
    destruct (SSHConnectionPool.getConnection cfg now (handshake r) p) as [p1 [c|msg]];
      cbn [fst snd].
    + destruct (sftpThrows r) as [thrown|].
      * repeat split; intros; try discriminate.
        match goal with H : Some _ = Some _ |- _ => injection H as <- end. reflexivity.
      * destruct (expandRemotePath_resolves (channel r) remotePath) as [path Hpath].
        rewrite Hpath.
        destruct (sftpError r);
          [|destruct (sftpStat (channel r) path) as [e|[|]];
            [| destruct (fastGet (channel r) path
                           (normalizedPath (validateLocalDownloadPath fs localPath))) |]];
          cbn [fst snd]; repeat split; intros; try discriminate;
          try match goal with H : inl _ = inl _ |- _ => injection H as <- end;
          try reflexivity; eauto.
    + repeat split; intros; try discriminate.
      match goal with H : inr _ = inr _ |- _ => injection H as <- end. reflexivity.
  - intros readdir toISOString remotePath. unfold Listing.listRemoteFiles.
    destruct (SSHConnectionPool.getConnection cfg now (handshake r) p) as [p1 [c|msg]];
      cbn [fst snd].
    + destruct (sftpThrows r) as [thrown|].
      * repeat split; intros; try discriminate.
        match goal with H : Some _ = Some _ |- _ => injection H as <- end. reflexivity.
      * destruct (expandRemotePath_resolves (channel r) remotePath) as [path Hpath].
        rewrite Hpath.
        destruct (sftpError r); [|destruct (readdir path) as [e|files] eqn:Edir];
          cbn [fst snd].
        -- repeat split; intros; try discriminate;
             try match goal with H : inl _ = inl _ |- _ => injection H as <- end;
             try reflexivity; eauto.
        -- repeat split; intros; try discriminate;
             try match goal with H : inl _ = inl _ |- _ => injection H as <- end;
             try reflexivity; eauto.
        -- destruct (Listing.fileLines toISOString files) as [lines|] eqn:El; cbn [fst snd].
           ++ repeat split; intros; try discriminate;
                try match goal with H : inl _ = inl _ |- _ => injection H as <- end;
                try reflexivity; eauto.
           ++ split; [|split; [|split; [|split]]]; intros; try discriminate.
              ** match goal with H : inl _ = inl _ |- _ => injection H as <- end. reflexivity.
              ** destruct (fileLines_total toISOString files) as [lines Hl]; [assumption|].
                 congruence.
              ** exists path, files. auto.
    + split; [|split; [|split; [|split]]]; intros; try discriminate.
      match goal with H : inr _ = inr _ |- _ => injection H as <- end. reflexivity.
Qed.

Lemma transfers_release_their_client_witness :
  fst (Transfer.uploadFile scenarioConfig sampleFs 0 9 sampleRemote
         "/tmp/data.csv" "~/data.csv" SSHConnectionPool.empty)
  = SSHConnectionPool.returnConnection scenarioConfig 9 0%nat
      (SSHConnectionPool.mkState [] [] 1).
Proof.
  destruct (transfers_release_their_client scenarioConfig sampleFs 0 9 sampleRemote
              SSHConnectionPool.empty) as [Hup _].
  destruct (Hup "/tmp/data.csv" "~/data.csv" eq_refl) as [Hrel _].
  exact (Hrel 0%nat eq_refl eq_refl).
Defined.

(** X16. Every request the limiter admits is counted, whatever becomes
    of it: after an "exec", "upload", "download" or "listFiles" call that
    passed the limiter, the rate window is the pruned window followed by
    [now], also when the command is then refused by the sanitizer, the
    local path is invalid, or no connection can be made. *)
Theorem admitted_requests_are_counted (cfg : Config) (fs : LocalFs) (now done : Z)
    (r : Remote) (w : World) :
  RATE_LIMIT_ENABLED cfg = true ->
  snd (RateLimiter.checkLimit cfg now (limiter w)) = Ok tt ->
  let recorded :=
    filter (RateLimiter.inWindow (now - RATE_LIMIT_WINDOW cfg)) (limiter w) ++ [now] in
  (forall command, limiter (fst (Tools.exec cfg now r command w)) = recorded)
  /\ (forall localPath remotePath,
        limiter (fst (Tools.upload cfg fs now done r localPath remotePath w)) = recorded)
  /\ (forall remotePath localPath,
        limiter (fst (Tools.download cfg fs now done r remotePath localPath w)) = recorded)
  /\ (forall readdir toISOString remotePath,
        limiter (fst (Listing.listFiles cfg now done r readdir toISOString remotePath w))
        = recorded).
Proof.
  intros He Hok recorded.
  assert (Hcheck : RateLimiter.checkLimit cfg now (limiter w) = (recorded, Ok tt)).
  { destruct (Z_lt_le_dec
                (Z.of_nat (List.length (filter (RateLimiter.inWindow (now - RATE_LIMIT_WINDOW cfg))
                                          (limiter w))))
                (RATE_LIMIT_MAX cfg)) as [Hlt | Hge].
    - now apply checkLimit_admitted.
    - rewrite checkLimit_denied in Hok by assumption. discriminate. }
  unfold Tools.exec, Tools.upload, Tools.download, Listing.listFiles. rewrite Hcheck.
  split; [|split; [|split]].
  - intros command. destruct (sanitizeCommand cfg command); [|reflexivity].
    destruct (configError r); [reflexivity|].
    now destruct (Exec.execSshCommand cfg now (handshake r) (execThrows r) a (sessions w)).
  - intros localPath remotePath. destruct (configError r); [reflexivity|].
    now destruct (Transfer.uploadFile cfg fs now done r localPath remotePath (sessions w)).
  - intros remotePath localPath. destruct (configError r); [reflexivity|].
    now destruct (Transfer.downloadFile cfg fs now done r remotePath localPath (sessions w)).
  - intros readdir toISOString remotePath. destruct (configError r); [reflexivity|].
    now destruct (Listing.listRemoteFiles cfg now done r readdir toISOString remotePath
                    (sessions w)).
Qed.

Lemma admitted_requests_are_counted_witness :
  limiter (fst (Tools.exec scenarioConfig 7 sampleRemote "ls; rm -rf /"
                  (mkWorld [1; 2] SSHConnectionPool.empty)))
  = [1; 2; 7].
Proof.
  exact (proj1 (admitted_requests_are_counted scenarioConfig sampleFs 7 9 sampleRemote
                  (mkWorld [1; 2] SSHConnectionPool.empty) eq_refl eq_refl)
           "ls; rm -rf /").
Defined.

(** X17. The local-path validators.  When expanding [~] and
    [path.resolve] do not throw, giving the normalized path: an upload
    source is valid exactly when that path exists, is a regular file and
    is readable; a download target is valid exactly when the directory of
    that path exists and is writable, and its result carries the
    normalized path and, when invalid, a suggestion.  When one of them
    throws, both validators return an invalid result with the path as
    given, the text of the exception after "Path validation error: " and
    no suggestion.  An invalid result always carries an error text. *)
Theorem local_path_validation (fs : LocalFs) (localPath : string) :
  let up := validateLocalUploadPath fs localPath in
  let down := validateLocalDownloadPath fs localPath in
  (forall n, normalizeLocal fs localPath = inr n ->
     (valid up = true
      <-> existsSync fs n = true /\ statIsFile fs n = inr true /\ accessR fs n = true)
     /\ (valid up = true -> normalizedPath up = n)
     /\ (valid down = true
         <-> existsSync fs (dirname fs n) = true /\ accessW fs (dirname fs n) = true)
     /\ normalizedPath down = n
     /\ (valid down = false -> suggestion down <> None))
  /\ (forall msg, normalizeLocal fs localPath = inl msg ->
        up = mkValidation false localPath
               (Some ("Path validation error: " ++ msg)%string) None
        /\ down = up)
  /\ (valid up = false -> error up <> None)
  /\ (valid down = false -> error down <> None).
Proof.
  intros up down. subst up down.
  unfold validateLocalUploadPath, validateLocalDownloadPath, validationError.
  destruct (normalizeLocal fs localPath) as [msg|n].
  - split; [intros n Hn; discriminate Hn|]. split.
    + intros msg' H. injection H as <-. split; reflexivity.
    + split; intros _; discriminate.
  - split.
    + intros n' H. injection H as <-.
      destruct (existsSync fs n) eqn:Ee;
        destruct (statIsFile fs n) as [msg|[|]] eqn:Es;
        destruct (accessR fs n) eqn:Er;
        destruct (existsSync fs (dirname fs n)) eqn:Ed;
        destruct (accessW fs (dirname fs n)) eqn:Ew;
        cbn [negb valid normalizedPath error suggestion];
        repeat split; intros; try discriminate; try reflexivity; try tauto;
        repeat match goal with H : _ /\ _ |- _ => destruct H end; congruence.
    + split; [intros msg H; discriminate H|].
      destruct (existsSync fs n) eqn:Ee;
        destruct (statIsFile fs n) as [msg|[|]] eqn:Es;
        destruct (accessR fs n) eqn:Er;
        destruct (existsSync fs (dirname fs n)) eqn:Ed;
        destruct (accessW fs (dirname fs n)) eqn:Ew;
        cbn [negb valid normalizedPath error suggestion];
        split; intros; discriminate.
Qed.

Lemma local_path_validation_witness :
  validateLocalDownloadPath
    (mkLocalFs (inr "/home/user") (fun a b => (a ++ "/" ++ b)%string)
       (fun _ => inl "ENOENT: no such file or directory, uv_cwd")
       (fun path => path) (fun _ => true) (fun _ => inr true)
       (fun _ => true) (fun _ => true))
    "./out.txt"
  = mkValidation false "./out.txt"
      (Some "Path validation error: ENOENT: no such file or directory, uv_cwd") None.
Proof.
  destruct (local_path_validation
              (mkLocalFs (inr "/home/user") (fun a b => (a ++ "/" ++ b)%string)
                 (fun _ => inl "ENOENT: no such file or directory, uv_cwd")
                 (fun path => path) (fun _ => true) (fun _ => inr true)
                 (fun _ => true) (fun _ => true))
              "./out.txt") as [_ [H _]].
  destruct (H "ENOENT: no such file or directory, uv_cwd" eq_refl) as [Hup Hdown].
  cbn zeta in Hup, Hdown. rewrite Hdown. exact Hup.
Defined.

(** ** Command line, environment and start-up checks *)

Section SettingsFacts.
Import Settings.

Lemma splitAtEquals_spec (s k v : string) :
  splitAtEquals s = Some (k, v)
  <-> s = (k ++ "=" ++ v)%string /\ ~ In "="%char (list_ascii_of_string k).
Proof.
  revert k v. induction s as [|ch s IH]; intros k v; cbn [splitAtEquals].
  - split; [discriminate|]. intros []. destruct k; discriminate.
  - destruct (Ascii.eqb ch "=") eqn:E.
    + apply Ascii.eqb_eq in E. subst ch. split.
      * intros H. injection H as <- <-. split; [reflexivity | intros []].
      * intros [Hs Hk]. destruct k as [|ch' k]; cbn in Hs.
        -- injection Hs as ->. reflexivity.
        -- injection Hs as <- _. exfalso. apply Hk. now left.
    + apply Ascii.eqb_neq in E. destruct (splitAtEquals s) as [[k' v']|] eqn:Es.
      * split.
        -- intros H. injection H as <- <-.
           destruct (proj1 (IH k' v') eq_refl) as [-> Hk]. split; [reflexivity|].
           cbn. intros [H | H]; [congruence | auto].
        -- intros [Hs Hk]. destruct k as [|ch' k]; cbn in Hs.
           ++ injection Hs as Hc _. congruence.
           ++ injection Hs as <- Hs.
              assert (Hsub : Some (k', v') = Some (k, v)).
              { apply IH. split; [exact Hs|]. intros Hin. apply Hk. now right. }
              injection Hsub as -> ->. reflexivity.
      * split; [discriminate|]. intros [Hs Hk]. destruct k as [|ch' k]; cbn in Hs.
        -- injection Hs as Hc _. congruence.
        -- injection Hs as <- Hs.
           assert (Hsub : None = Some (k, v)).
           { apply IH. split; [exact Hs|]. intros Hin. apply Hk. now right. }
           discriminate.
Qed.

Lemma matchArg_intro (key value : string) :
  key <> EmptyString ->
  ~ In "="%char (list_ascii_of_string key) ->
  noLineTerminator value = true ->
  matchArg ("--" ++ key ++ "=" ++ value) = Some (key, value).
Proof.
  intros Hk Hno Hv. unfold matchArg. cbn [String.append]. cbv beta iota.
  rewrite (proj2 (splitAtEquals_spec (key ++ String "=" value) key value) (conj eq_refl Hno)).
  rewrite Hv. destruct key; [congruence | reflexivity].
Qed.

Lemma parseArgvFrom_app (args1 args2 : list string) : forall config,
  parseArgvFrom (args1 ++ args2) config = parseArgvFrom args2 (parseArgvFrom args1 config).
Proof.
  induction args1 as [|arg args1 IH]; intros config; cbn [app parseArgvFrom]; [reflexivity|].
  destruct (matchArg arg) as [[k v]|]; apply IH.
Qed.


Lemma lookup_assign_other (key key' value : string) (config : Dict) :
  key' <> key -> lookup key (assign key' value config) = lookup key config.
Proof.
  intros Hne. unfold assign. destruct (String.eqb key' "__proto__"); [reflexivity|].
  cbn. apply String.eqb_neq in Hne. now rewrite Hne.
Qed.

End SettingsFacts.

(** X18. An argument is taken as a setting exactly when it is [--],
    a non-empty key without [=], an [=], and a value without line
    terminator; the key and the value are then the text before and after
    the first [=].  So a value may itself contain [=], and may be empty. *)
Theorem matchArg_iff (arg key value : string) :
  Settings.matchArg arg = Some (key, value)
  <-> arg = ("--" ++ key ++ "=" ++ value)%string
      /\ key <> EmptyString
      /\ ~ In "="%char (list_ascii_of_string key)
      /\ Settings.noLineTerminator value = true.
Proof.
  split.
  - unfold Settings.matchArg.
    destruct arg as [|c1 arg']; [discriminate|].
    destruct c1 as [[] [] [] [] [] [] [] []]; try discriminate.
    destruct arg' as [|c2 rest]; [discriminate|].
    destruct c2 as [[] [] [] [] [] [] [] []]; try discriminate.
    destruct (Settings.splitAtEquals rest) as [[k v]|] eqn:Es; [|discriminate].
    destruct (negb (String.length k =? 0)%nat && Settings.noLineTerminator v) eqn:Ec;
      [|discriminate].
    intros H. injection H as <- <-.
    apply andb_true_iff in Ec. destruct Ec as [Hk Hv].
    apply splitAtEquals_spec in Es. destruct Es as [-> Hno].
    repeat split; try assumption. intros ->. discriminate Hk.
  - intros [-> [Hk [Hno Hv]]]. now apply matchArg_intro.
Qed.



(** X20. [validateConfig] lets the server start exactly when the
    settings hold a non-empty host, a non-empty user, and a port that is
    absent, empty or a number; otherwise the error names each missing or
    invalid setting. *)
Theorem validateConfig_iff (numberIsNaN : string -> bool) (config : Settings.Dict) :
  let portOk :=
    match Settings.lookup "port" config with
    | Some port => port = EmptyString \/ numberIsNaN port = false
    | None => True
    end in
  (Settings.validateConfig numberIsNaN config = None
   <-> Settings.truthy (Settings.lookup "host" config) = true
       /\ Settings.truthy (Settings.lookup "user" config) = true
       /\ portOk)
  /\ (In "Missing required --host" (Settings.configErrors numberIsNaN config)
      <-> Settings.truthy (Settings.lookup "host" config) = false)
  /\ (In "Missing required --user" (Settings.configErrors numberIsNaN config)
      <-> Settings.truthy (Settings.lookup "user" config) = false)
  /\ (In "Invalid --port" (Settings.configErrors numberIsNaN config) <-> ~ portOk).
Proof.
  intros portOk. subst portOk. unfold Settings.validateConfig, Settings.configErrors.
  destruct (Settings.truthy (Settings.lookup "host" config));
    destruct (Settings.truthy (Settings.lookup "user" config));
    destruct (Settings.lookup "port" config) as [[|ch port]|];
    cbn [Settings.truthy String.length Nat.eqb negb andb app In];
    try destruct (numberIsNaN (String ch port)) eqn:En;
    cbn [app In];
    repeat split; intros; try discriminate; try reflexivity; try tauto;
    repeat match goal with
           | H : _ /\ _ |- _ => destruct H
           | H : _ \/ _ |- _ => destruct H
           | H : False |- _ => destruct H
           end;
    try discriminate; try congruence; try tauto; auto;
    try (intros [Hbad | Hbad]; discriminate Hbad).
Qed.

(** X21. The length limit is never zero.  Without a [maxChars] setting,
    or with one that is not a number, it is 1000.  With [none] in any
    letter case, or with a number that is zero or negative, there is no
    limit: outside strict mode every command that is not blank is then
    accepted, however long. *)
Theorem maxChars_limit (parseInt : string -> JsNumber) (raw : option string) (cfg : Config) :
  MAX_CHARS cfg = Settings.maxChars parseInt raw ->
  MAX_CHARS cfg <> Some 0%nat
  /\ (raw = None
      \/ (exists s, raw = Some s /\ Settings.toLowerCase s <> "none" /\ parseInt s = NaN) ->
      MAX_CHARS cfg = Some 1000%nat)
  /\ ((exists s, raw = Some s
                 /\ (Settings.toLowerCase s = "none"
                     \/ exists z, parseInt s = Num z /\ z <= 0)) ->
      STRICT_MODE cfg = false ->
      forall command, trim command <> EmptyString ->
        sanitizeCommand cfg command = Ok (trim command)).
Proof.
  intros Hm. split; [|split].
  - rewrite Hm. unfold Settings.maxChars. destruct raw as [s|]; [|discriminate].
    destruct (String.eqb (Settings.toLowerCase s) "none"); [discriminate|].
    destruct (parseInt s) as [|z| |]; try discriminate.
    destruct (Z.leb_spec z 0) as [Hle | Hgt]; [discriminate|].
    intros Heq. injection Heq as Heq. lia.
  - rewrite Hm. unfold Settings.maxChars. intros [-> | [s [-> [Hl Hp]]]]; [reflexivity|].
    apply String.eqb_neq in Hl. now rewrite Hl, Hp.
  - intros [s [-> Hcase]] Hstrict command Hne.
    assert (Hnone : MAX_CHARS cfg = None).
    { rewrite Hm. unfold Settings.maxChars.
      destruct (String.eqb (Settings.toLowerCase s) "none") eqn:El; [reflexivity|].
      destruct Hcase as [Hl | [z [Hp Hz]]].
      - apply String.eqb_eq in Hl. congruence.
      - rewrite Hp. apply Z.leb_le in Hz. now rewrite Hz. }
    unfold sanitizeCommand. rewrite Hnone, Hstrict.
    destruct (trim command); [congruence | reflexivity].
Qed.

Lemma maxChars_limit_witness :
  sanitizeCommand (mkConfig 60000 true 10 60000 true 3 300000 None false) "  uptime  "
  = Ok "uptime".
Proof.
  refine (proj2 (proj2 (maxChars_limit (fun _ => NaN) (Some "NONE")
                          (mkConfig 60000 true 10 60000 true 3 300000 None false) eq_refl))
            _ eq_refl "  uptime  " _).
  - exists "NONE". split; [reflexivity|]. left. reflexivity.
  - discriminate.
Defined.

(** X22. [buildSshConfig] uses the password when there is one: the key
    file is then not read and the result has no private key.  It never
    returns both a password and a private key; host, port and user are
    passed on as they are; and it fails only when there is no password
    and the key file cannot be read. *)
Theorem buildSshConfig_password_first (HOST : option string) (PORT : JsNumber)
    (USER PASSWORD KEY : option string) (readFile : string -> string + string) :
  (Settings.truthy PASSWORD = true ->
   Settings.buildSshConfig HOST PORT USER PASSWORD KEY readFile
   = inr (Settings.mkSshConfig HOST PORT USER PASSWORD None))
  /\ (forall c,
        Settings.buildSshConfig HOST PORT USER PASSWORD KEY readFile = inr c ->
        (Settings.password c = None \/ Settings.privateKey c = None)
        /\ Settings.host c = HOST /\ Settings.port c = PORT /\ Settings.username c = USER)
  /\ (forall msg,
        Settings.buildSshConfig HOST PORT USER PASSWORD KEY readFile = inl msg ->
        Settings.truthy PASSWORD = false
        /\ exists path, KEY = Some path /\ readFile path = inr msg).
Proof.
  unfold Settings.buildSshConfig.
  destruct (Settings.truthy PASSWORD) eqn:Ep.
  - split; [reflexivity|]. split.
    + intros c H. injection H as <-. cbn. auto.
    + discriminate.
  - split; [discriminate|]. split.
    + intros c. destruct KEY as [path|].
      * destruct (Settings.truthy (Some path)).
        -- destruct (readFile path); [|discriminate]. intros H. injection H as <-. cbn. auto.
        -- intros H. injection H as <-. cbn. auto.
      * intros H. injection H as <-. cbn. auto.
    + intros msg. destruct KEY as [path|]; [|discriminate].
      destruct (Settings.truthy (Some path)); [|discriminate].
      destruct (readFile path) eqn:Er; [discriminate|].
      intros H. injection H as <-. split; [reflexivity|]. eauto.
Qed.

Lemma buildSshConfig_password_first_witness :
  Settings.buildSshConfig (Some "example.org") (Num 22) (Some "root") (Some "secret")
    (Some "/missing/id_rsa") (fun _ => inr "ENOENT")
  = inr (Settings.mkSshConfig (Some "example.org") (Num 22) (Some "root") (Some "secret") None).
Proof.
  exact (proj1 (buildSshConfig_password_first (Some "example.org") (Num 22) (Some "root")
                  (Some "secret") (Some "/missing/id_rsa") (fun _ => inr "ENOENT"))
           eq_refl).
Defined.

Lemma matchArg_needs_equals (arg : string) :
  ~ In "="%char (list_ascii_of_string arg) -> Settings.matchArg arg = None.
Proof.
  intros Hno. destruct (Settings.matchArg arg) as [[k v]|] eqn:Em; [|reflexivity].
  exfalso. unfold Settings.matchArg in Em.
  destruct arg as [|c1 arg']; [discriminate|].
  destruct c1 as [[] [] [] [] [] [] [] []]; try discriminate.
  destruct arg' as [|c2 rest]; [discriminate|].
  destruct c2 as [[] [] [] [] [] [] [] []]; try discriminate.
  destruct (Settings.splitAtEquals rest) as [[k' v']|] eqn:Es; [|discriminate].
  apply splitAtEquals_spec in Es. destruct Es as [-> _].
  apply Hno. cbn [list_ascii_of_string]. right. right.
  rewrite list_of_append. apply in_or_app. right. now left.
Qed.

Lemma matchArg_needs_dashes (arg : string) :
  startsWith arg "--" = false -> Settings.matchArg arg = None.
Proof.
  unfold startsWith, Settings.matchArg. intros Hp.
  destruct arg as [|c1 arg']; [reflexivity|].
  destruct c1 as [[] [] [] [] [] [] [] []]; try reflexivity.
  destruct arg' as [|c2 rest]; [reflexivity|].
  destruct c2 as [[] [] [] [] [] [] [] []]; try reflexivity.
  cbn in Hp. destruct rest; discriminate Hp.
Qed.

(** X23. An argument that does not start with [--], or that has no [=],
    changes nothing: the settings are those of the command line without
    it.  A bare flag such as [--debug] is therefore not a setting. *)
Theorem unmatched_arguments_are_ignored (args1 args2 : list string) (arg : string) :
  startsWith arg "--" = false \/ ~ In "="%char (list_ascii_of_string arg) ->
  Settings.parseArgv (args1 ++ arg :: args2) = Settings.parseArgv (args1 ++ args2).
Proof.
  intros Hbad.
  assert (Hnone : Settings.matchArg arg = None).
  { destruct Hbad; [now apply matchArg_needs_dashes | now apply matchArg_needs_equals]. }
  unfold Settings.parseArgv. rewrite !parseArgvFrom_app.
  cbn [Settings.parseArgvFrom]. now rewrite Hnone.
Qed.

Lemma unmatched_arguments_are_ignored_witness :
  Settings.parseArgv ["--host=example.org"; "--debug"; "--user=root"]
  = Settings.parseArgv ["--host=example.org"; "--user=root"].
Proof.
  apply (unmatched_arguments_are_ignored ["--host=example.org"] ["--user=root"] "--debug").
  right. cbn. intros H. repeat (destruct H as [H | H]; [discriminate H|]). exact H.
Defined.

(** X24. The rate window does not grow without bound: from an empty
    window, whatever the number of calls and whatever the clock says,
    it never holds more than [max] timestamps when the limiter is
    enabled, and it stays empty when the limiter is disabled. *)
Theorem rate_window_is_bounded (cfg : Config) (times : list Z) :
  0 <= RATE_LIMIT_MAX cfg ->
  (RATE_LIMIT_ENABLED cfg = true ->
   Z.of_nat (List.length (fst (RateLimiter.checkAll cfg times []))) <= RATE_LIMIT_MAX cfg)
  /\ (RATE_LIMIT_ENABLED cfg = false -> fst (RateLimiter.checkAll cfg times []) = []).
Proof.
  intros HM. split.
  - intros He.
    assert (Hgen : forall reqs,
              Z.of_nat (List.length reqs) <= RATE_LIMIT_MAX cfg ->
              Z.of_nat (List.length (fst (RateLimiter.checkAll cfg times reqs)))
              <= RATE_LIMIT_MAX cfg).
    { induction times as [|t times IH]; intros reqs Hb; cbn [RateLimiter.checkAll];
        [exact Hb|].
      pose proof (filter_length_le (RateLimiter.inWindow (t - RATE_LIMIT_WINDOW cfg)) reqs)
        as Hle.
      destruct (Z_lt_le_dec
                  (Z.of_nat (List.length (filter (RateLimiter.inWindow
                                                    (t - RATE_LIMIT_WINDOW cfg)) reqs)))
                  (RATE_LIMIT_MAX cfg)) as [Hlt | Hge].
      - rewrite checkLimit_admitted by assumption.
        specialize (IH (filter (RateLimiter.inWindow (t - RATE_LIMIT_WINDOW cfg)) reqs ++ [t])).
        destruct (RateLimiter.checkAll cfg times
                    (filter (RateLimiter.inWindow (t - RATE_LIMIT_WINDOW cfg)) reqs ++ [t]))
          as [reqs2 rs].
        cbn [fst] in *. apply IH. rewrite length_app. cbn [List.length]. lia.
      - rewrite checkLimit_denied by assumption.
        specialize (IH (filter (RateLimiter.inWindow (t - RATE_LIMIT_WINDOW cfg)) reqs)).
        destruct (RateLimiter.checkAll cfg times
                    (filter (RateLimiter.inWindow (t - RATE_LIMIT_WINDOW cfg)) reqs))
          as [reqs2 rs].
        cbn [fst] in *. apply IH. lia. }
    apply Hgen. cbn. exact HM.
  - intros Hd. induction times as [|t times IH]; cbn [RateLimiter.checkAll]; [reflexivity|].
    rewrite checkLimit_disabled by assumption.
    destruct (RateLimiter.checkAll cfg times []) as [reqs2 rs]. exact IH.
Qed.

Lemma rate_window_is_bounded_witness :
  Z.of_nat (List.length (fst (RateLimiter.checkAll scenarioConfig [5; 3; 9; 1; 7] []))) <= 3.
Proof.
  apply (rate_window_is_bounded scenarioConfig [5; 3; 9; 1; 7]); [cbn; lia | reflexivity].
Defined.
